(** * Inspext-AI: field extraction, batch coordination and worker pool

    A shallow embedding of [src/utils/ocr.ts], [src/utils/csv.ts] and the
    [onDrop] handler of [src/App.tsx], with the properties the specification
    states about them.

    Conventions.
    - A JavaScript string is a sequence of UTF-16 code units: [text] is
      [list N].  [u "..."] turns a literal into such a sequence.
    - Regular expressions are kept as syntax ([regex]) and run by a
      backtracking matcher written in continuation-passing style, the way
      ECMA-262 defines pattern semantics (22.2.2): greedy quantifiers, ordered
      alternation, leftmost match.
    - Numbers: every string handed to [parseFloat] by this program is a
      coordinate token, which has at most fifteen significant decimal digits.
      For such strings binary64 parsing followed by [Number.prototype.toString]
      gives back the canonical form of the same decimal, and the integer
      bounds 23, 37, 60 and 78 are exact, so a number is represented by its
      exact decimal value ([dec]). *)

From Stdlib Require Import String Ascii.
From Stdlib Require Import NArith ZArith QArith Bool Arith Lia List.
Import ListNotations.
Close Scope Q_scope.
Close Scope Z_scope.

(** ** Strings as code-unit sequences *)

Definition char := N.
Definition text := list char.

Definition u (s : string) : text :=
  map N_of_ascii (list_ascii_of_string s).

Definition char_eqb (a b : char) : bool := N.eqb a b.


(** *** Character classes *)

Local Open Scope N_scope.

Definition in_range (lo hi c : char) : bool := (N.leb lo c) && (N.leb c hi).

(** [\d] *)
Definition is_digit (c : char) : bool := in_range 48 57 c.

Definition is_upper (c : char) : bool := in_range 65 90 c.
Definition is_lower (c : char) : bool := in_range 97 122 c.

(** [[A-Za-z0-9]]; also [[A-Z0-9]] under the [i] flag: canonicalisation maps
    [a-z] to [A-Z] and never maps a non-ASCII code unit to an ASCII one. *)
Definition is_alnum (c : char) : bool := is_digit c || is_upper c || is_lower c.

(** [\s]: WhiteSpace and LineTerminator code units. *)
Definition is_space (c : char) : bool :=
  in_range 9 13 c || N.eqb c 32 || N.eqb c 160 || N.eqb c 5760 ||
  in_range 8192 8202 c || N.eqb c 8232 || N.eqb c 8233 || N.eqb c 8239 ||
  N.eqb c 8287 || N.eqb c 12288 || N.eqb c 65279.

Definition is_char (x : char) (c : char) : bool := N.eqb c x.

(** A literal letter under the [i] flag. *)
Definition is_letter_ci (upper : char) (c : char) : bool :=
  N.eqb c upper || N.eqb c (upper + 32).

Definition ch_newline : char := 10.
Definition ch_space : char := 32.
Definition ch_plus : char := 43.
Definition ch_comma : char := 44.
Definition ch_minus : char := 45.
Definition ch_dot : char := 46.
Definition ch_slash : char := 47.
Definition ch_zero : char := 48.
Definition ch_colon : char := 58.
Definition ch_A : char := 65.
Definition ch_M : char := 77.
Definition ch_P : char := 80.
Definition ch_e : char := 101.

(** [[.,]] *)
Definition is_dot_or_comma (c : char) : bool := is_char ch_dot c || is_char ch_comma c.
(** [[\s,]] and [[,\s]] *)
Definition is_space_or_comma (c : char) : bool := is_space c || is_char ch_comma c.

Local Close Scope N_scope.

(** ** Regular expressions *)

Inductive regex : Type :=
| Eps : regex
| Chr : (char -> bool) -> regex
| Bol : regex                                  (* ^ *)
| Eol : regex                                  (* $ *)
| Seq : regex -> regex -> regex
| Alt : regex -> regex -> regex
| Rep : nat -> option nat -> regex -> regex    (* greedy {lo,hi}; None is no upper bound *)
| Group : nat -> regex -> regex.               (* capturing parentheses number i *)

Declare Scope regex_scope.
Delimit Scope regex_scope with re.
Bind Scope regex_scope with regex.
Infix ";;" := Seq (at level 41, right associativity) : regex_scope.
Infix "<|>" := Alt (at level 42, right associativity) : regex_scope.

Definition Between (lo hi : nat) (r : regex) : regex := Rep lo (Some hi) r.   (* r{lo,hi} *)
Definition AtLeast (lo : nat) (r : regex) : regex := Rep lo None r.           (* r{lo,} *)
Definition Exactly (n : nat) (r : regex) : regex := Rep n (Some n) r.         (* r{n} *)
Definition Opt (r : regex) : regex := Rep 0 (Some 1) r.                       (* r? *)
Definition Plus (r : regex) : regex := Rep 1 None r.                          (* r+ *)
Definition Star (r : regex) : regex := Rep 0 None r.                          (* r* *)

(** Captures: the most recent binding of a group number wins. *)
Definition caps := list (nat * text).

Fixpoint cap (i : nat) (c : caps) : option text :=
  match c with
  | [] => None
  | (j, w) :: c' => if Nat.eqb i j then Some w else cap i c'
  end.

(** The part of [s] consumed when the rest is [s']. *)
Definition consumed (s s' : text) : text := firstn (length s - length s') s.

Definition mres := (text * caps)%type.
Definition cont := text -> caps -> option mres.
Definition matcher := text -> caps -> cont -> option mres.

Definition pred_bound (hi : option nat) : option nat := option_map Nat.pred hi.

(** RepeatMatcher of ECMA-262 for a greedy quantifier.  An iteration that
    consumes nothing once the minimum is reached is rejected, so every
    accepted iteration lowers [lo + length s]; [fuel] bounds that measure.
    No capturing group of this program sits under a quantifier, so the
    per-iteration reset of captures has nothing to reset. *)
Fixpoint repeat_matcher (mb : matcher) (fuel lo : nat) (hi : option nat)
         (s : text) (c : caps) (k : cont) {struct fuel} : option mres :=
  match fuel with
  | O => None
  | S fuel' =>
      match hi with
      | Some O => k s c
      | _ =>
          let d : cont := fun s1 c1 =>
            if Nat.eqb lo 0 && Nat.eqb (length s1) (length s) then None
            else repeat_matcher mb fuel' (Nat.pred lo) (pred_bound hi) s1 c1 k in
          if Nat.eqb lo 0 then
            match mb s c d with
            | Some z => Some z
            | None => k s c
            end
          else mb s c d
      end
  end.

Section Matcher.
(** Length of the whole subject string; [^] holds where all of it remains. *)
Variable total : nat.

Fixpoint m (r : regex) (s : text) (c : caps) (k : cont) {struct r} : option mres :=
  match r with
  | Eps => k s c
  | Chr p =>
      match s with
      | a :: s' => if p a then k s' c else None
      | [] => None
      end
  | Bol => if Nat.eqb (length s) total then k s c else None
  | Eol => match s with [] => k s c | _ :: _ => None end
  | Seq r1 r2 => m r1 s c (fun s1 c1 => m r2 s1 c1 k)
  | Alt r1 r2 =>
      match m r1 s c k with
      | Some z => Some z
      | None => m r2 s c k
      end
  | Rep lo hi r1 => repeat_matcher (m r1) (S (lo + length s)) lo hi s c k
  | Group i r1 => m r1 s c (fun s1 c1 => k s1 ((i, consumed s s1) :: c1))
  end.

(** One attempt at the current position. *)
Definition match_here (r : regex) (s : text) : option mres :=
  m r s [] (fun s' c' => Some (s', c')).

(** Result of a successful search: text before the match, the match
    (group 0), text after it, and the captures. *)
Record found : Type := Found {
  f_pre : text;
  f_hit : text;
  f_post : text;
  f_caps : caps
}.

(** RegExpBuiltinExec without the sticky flag: try every start index from
    the current one up to and including the end of the string. *)
Fixpoint search (r : regex) (pre : text) (s : text) {struct s} : option found :=
  match match_here r s with
  | Some (s', c') => Some (Found pre (consumed s s') s' c')
  | None =>
      match s with
      | [] => None
      | a :: s1 => search r (pre ++ [a]) s1
      end
  end.

(** All successive matches of a global regex from the current position:
    each item is the text skipped before a match and the match; the last
    component is the unmatched tail.  After an empty match the index
    advances by one code unit. *)
Fixpoint scan (fuel : nat) (r : regex) (carry : text) (s : text) {struct fuel}
  : list (text * text) * text :=
  match fuel with
  | O => ([], carry ++ s)
  | S fuel' =>
      match search r [] s with
      | None => ([], carry ++ s)
      | Some f =>
          match f_hit f, f_post f with
          | [], [] => ([(carry ++ f_pre f, [])], [])
          | [], a :: rest =>
              let '(hits, tl) := scan fuel' r [a] rest in
              ((carry ++ f_pre f, []) :: hits, tl)
          | w, rest =>
              let '(hits, tl) := scan fuel' r [] rest in
              ((carry ++ f_pre f, w) :: hits, tl)
          end
      end
  end.
End Matcher.

(** [str.match(re)] for a regex without the [g] flag. *)
Definition exec (r : regex) (s : text) : option found := search (length s) r [] s.

Definition scan_all (r : regex) (s : text) : list (text * text) * text :=
  scan (length s) (S (length s)) r [] s.

(** [str.match(re) || []] for a regex with the [g] flag. *)
Definition match_all (r : regex) (s : text) : list text := map snd (fst (scan_all r s)).

(** [str.replace(re, by)] for a regex with the [g] flag. *)
Definition replace_all (r : regex) (by_ : text) (s : text) : text :=
  let '(hits, tl) := scan_all r s in
  concat (map (fun h => fst h ++ by_) hits) ++ tl.

(** [str.replace(re, by)] for a regex without the [g] flag. *)
Definition replace_first (r : regex) (by_ : text) (s : text) : text :=
  match exec r s with
  | Some f => f_pre f ++ by_ ++ f_post f
  | None => s
  end.

(** ** String methods *)

(** [str.replace(a, b)] with a one-character string pattern: first occurrence only. *)
Fixpoint replace_char (a b : char) (s : text) : text :=
  match s with
  | [] => []
  | x :: s' => if char_eqb x a then b :: s' else x :: replace_char a b s'
  end.

Fixpoint trim_start (s : text) : text :=
  match s with
  | [] => []
  | a :: s' => if is_space a then trim_start s' else s
  end.

Definition trim_end (s : text) : text := rev (trim_start (rev s)).

(** [str.trim()] *)
Definition trim (s : text) : text := trim_end (trim_start s).

Fixpoint is_prefix (p s : text) : bool :=
  match p, s with
  | [], _ => true
  | x :: p', y :: s' => char_eqb x y && is_prefix p' s'
  | _ :: _, [] => false
  end.

(** Scanning for a non-empty separator: [skip] counts the code units of the
    occurrence just found that are still to be passed over; [cur] is the
    piece being collected. *)
Fixpoint split_aux (sep : text) (skip : nat) (cur : text) (s : text) : list text :=
  match s with
  | [] => [cur]
  | a :: s' =>
      match skip with
      | S n => split_aux sep n cur s'
      | O =>
          if is_prefix sep s then cur :: split_aux sep (length sep - 1) [] s'
          else split_aux sep 0 (cur ++ [a]) s'
      end
  end.

(** [str.split(sep)] with a string separator. *)
Definition split (sep : text) (s : text) : list text :=
  match sep with
  | [] => map (fun a => [a]) s
  | _ :: _ => split_aux sep 0 [] s
  end.

(** ** Numbers *)

(** The decimal [mant / 10 ^ scale]. *)
Record dec : Type := Dec { mant : Z; scale : nat }.

Inductive number : Type :=
| NaN : number
| Num : dec -> number.

Definition digit_val (c : char) : Z := Z.of_N (c - 48).

Definition digits_val (ds : text) : Z :=
  fold_left (fun acc c => (10 * acc + digit_val c)%Z) ds 0%Z.

Fixpoint span (p : char -> bool) (s : text) : text * text :=
  match s with
  | [] => ([], [])
  | a :: s' =>
      if p a then let '(w, rest) := span p s' in (a :: w, rest)
      else ([], s)
  end.

(** [parseFloat]: leading white space, an optional sign, then the longest
    prefix of the form digits, optional dot, digits.  Exponent parts and the
    literal Infinity are left out: the argument here is always a coordinate
    token, made of one optional minus sign, digits and one dot. *)
Definition parseFloat (s : text) : number :=
  let s0 := trim_start s in
  let '(neg, s1) :=
    match s0 with
    | c :: r =>
        if is_char ch_minus c then (true, r)
        else if is_char ch_plus c then (false, r)
        else (false, s0)
    | [] => (false, [])
    end in
  let '(ip, s2) := span is_digit s1 in
  let fp :=
    match s2 with
    | c :: r => if is_char ch_dot c then fst (span is_digit r) else []
    | [] => []
    end in
  match ip, fp with
  | [], [] => NaN
  | _, _ =>
      let v := digits_val (ip ++ fp) in
      Num (Dec (if neg then (- v)%Z else v) (length fp))
  end.

(** [n >= k] and [n <= k] for an integer literal [k]; false on NaN. *)
Definition num_ge (n : number) (k : Z) : bool :=
  match n with
  | NaN => false
  | Num d => (k * 10 ^ Z.of_nat (scale d) <=? mant d)%Z
  end.

Definition num_le (n : number) (k : Z) : bool :=
  match n with
  | NaN => false
  | Num d => (mant d <=? k * 10 ^ Z.of_nat (scale d))%Z
  end.

(** Decimal digits of a natural number, most significant first. *)
Fixpoint digits_aux (fuel : nat) (n : N) (acc : text) : text :=
  match fuel with
  | O => acc
  | S fuel' =>
      if N.eqb n 0 then acc
      else digits_aux fuel' (n / 10)%N ((48 + n mod 10)%N :: acc)
  end.

Definition digits_of (n : N) : text := digits_aux (N.size_nat n) n [].

(** Drop the factors of ten of [n], counting them. *)
Fixpoint strip_tens (fuel : nat) (n : N) (z : nat) : N * nat :=
  match fuel with
  | O => (n, z)
  | S fuel' =>
      if N.eqb n 0 then (n, z)
      else if N.eqb (n mod 10) 0 then strip_tens fuel' (n / 10)%N (S z)
      else (n, z)
  end.

Definition zeros (n : nat) : text := repeat ch_zero n.

(** Number::toString (ECMA-262 6.1.6.1.20), radix 10, on an exact decimal:
    [ds] are the [k] significant digits and [n] is the position of the
    decimal point relative to their start. *)
Definition number_to_string (x : number) : text :=
  match x with
  | NaN => u "NaN"
  | Num d =>
      let a := Z.to_N (Z.abs (mant d)) in
      if N.eqb a 0 then u "0"
      else
        let '(sig, z) := strip_tens (N.size_nat a) a 0 in
        let ds := digits_of sig in
        let k := Z.of_nat (length ds) in
        let n := (k + Z.of_nat z - Z.of_nat (scale d))%Z in
        let body :=
          if ((k <=? n) && (n <=? 21))%Z then ds ++ zeros (Z.to_nat (n - k))
          else if ((0 <? n) && (n <=? 21))%Z then
            firstn (Z.to_nat n) ds ++ ch_dot :: skipn (Z.to_nat n) ds
          else if ((-6 <? n) && (n <=? 0))%Z then
            ch_zero :: ch_dot :: zeros (Z.to_nat (- n)) ++ ds
          else
            let e := (n - 1)%Z in
            let es := (if (e <? 0)%Z then ch_minus else ch_plus)
                        :: digits_of (Z.to_N (Z.abs e)) in
            match ds with
            | [] => []
            | d0 :: [] => d0 :: ch_e :: es
            | d0 :: more => d0 :: ch_dot :: more ++ ch_e :: es
            end in
        if (mant d <? 0)%Z then ch_minus :: body else body
  end.

(** ** The patterns of [processImage] *)

Local Open Scope regex_scope.

Definition digit : regex := Chr is_digit.
Definition alnum : regex := Chr is_alnum.
Definition space : regex := Chr is_space.
Definition lit (c : char) : regex := Chr (is_char c).

(** [/\n/g] and [/\s+/g] *)
Definition newlineRegex : regex := lit ch_newline.
Definition spacesRegex : regex := Plus space.

(** [/[A-Z0-9]{4,8}\+[A-Z0-9]{2,4}/i] *)
Definition simplePlusCodeRegex : regex :=
  Between 4 8 alnum ;; lit ch_plus ;; Between 2 4 alnum.

(** The address pattern: start of string, then any number of groups
    [[\s,]+[A-Za-z0-9]{2,}], written in the source as a starred group that
    holds one such group followed by a starred group of the same. *)
Definition addressCleanupRegex : regex :=
  Bol ;;
  Star (Plus (Chr is_space_or_comma) ;; AtLeast 2 alnum ;;
        Star (Plus (Chr is_space_or_comma) ;; AtLeast 2 alnum)).

(** [/[,\s]+$/] *)
Definition trailingSeparatorsRegex : regex := Plus (Chr is_space_or_comma) ;; Eol.

(** [/-?\d{1,3}[.,]\d{3,12}/g] *)
Definition allNumbersRegex : regex :=
  Opt (lit ch_minus) ;; Between 1 3 digit ;; Chr is_dot_or_comma ;; Between 3 12 digit.

(** [(?:AM|PM)] under the [i] flag *)
Definition ampm : regex :=
  (Chr (is_letter_ci ch_A) ;; Chr (is_letter_ci ch_M)) <|>
  (Chr (is_letter_ci ch_P) ;; Chr (is_letter_ci ch_M)).

(** [\d{1,2}\/\d{1,2}\/\d{2,4}] *)
Definition dateRegex : regex :=
  Between 1 2 digit ;; lit ch_slash ;; Between 1 2 digit ;; lit ch_slash ;; Between 2 4 digit.

(** [\d{lo,hi}:\d{2}(?::\d{2})?] *)
Definition clockRegex (lo hi : nat) : regex :=
  Between lo hi digit ;; lit ch_colon ;; Exactly 2 digit ;;
  Opt (lit ch_colon ;; Exactly 2 digit).

Definition timestampPatterns : list regex :=
  [ (* /(\d{1,2}:\d{2}(?::\d{2})?\s?(?:AM|PM))\s+(\d{1,2}\/\d{1,2}\/\d{2,4})/i *)
    Group 1 (clockRegex 1 2 ;; Opt space ;; ampm) ;; Plus space ;; Group 2 dateRegex;
    (* /(\d{1,2}\/\d{1,2}\/\d{2,4})\s+(\d{1,2}:\d{2}(?::\d{2})?\s?(?:AM|PM)?)/i *)
    Group 1 dateRegex ;; Plus space ;; Group 2 (clockRegex 1 2 ;; Opt space ;; Opt ampm);
    (* /(\d{2}:\d{2}(?::\d{2})?)\s+(\d{1,2}\/\d{1,2}\/\d{2,4})/i *)
    Group 1 (clockRegex 2 2) ;; Plus space ;; Group 2 dateRegex;
    (* /(\d{1,2}\/\d{1,2}\/\d{2,4})\s+(\d{2}:\d{2}(?::\d{2})?)/i *)
    Group 1 dateRegex ;; Plus space ;; Group 2 (clockRegex 2 2) ].

Local Close Scope regex_scope.

(** ** Field extraction (lines 38-98 of ocr.ts) *)

(** A step either completes with a value or throws. *)
Inductive outcome (A : Type) : Type :=
| Ok : A -> outcome A
| Throw : text -> outcome A.
Arguments Ok {A} _.
Arguments Throw {A} _.

Definition bind {A B : Type} (x : outcome A) (f : A -> outcome B) : outcome B :=
  match x with
  | Ok a => f a
  | Throw e => Throw e
  end.

Notation "'let!' x ':=' e1 'in' e2" := (bind e1 (fun x => e2))
  (at level 10, x name, e1 at level 100, e2 at level 200).

Record ExtractedData : Type := mkExtractedData {
  imageName : text;
  plusCode : text;
  latitude : text;
  longitude : text;
  timestamp : text;
  originalText : text
}.

Definition NotFound : text := u "Not found".

(** [text.replace(/\n/g, " ").replace(/\s+/g, " ")] *)
Definition normalize (raw : text) : text :=
  replace_all spacesRegex [ch_space] (replace_all newlineRegex [ch_space] raw).

(** [match[i]] inside a template literal: [undefined] prints as such. *)
Definition group (i : nat) (f : found) : text :=
  match cap i (f_caps f) with
  | Some w => w
  | None => u "undefined"
  end.

(** [xs[1] || ""] *)
Definition second_or_empty (xs : list text) : text :=
  match nth_error xs 1 with
  | Some x => x
  | None => []
  end.

Definition extractPlusCode (normalizedText : text) : text :=
  match exec simplePlusCodeRegex normalizedText with
  | None => NotFound
  | Some plusCodeMatch =>
      let pc := trim (f_hit plusCodeMatch) in
      let afterMatch := second_or_empty (split pc normalizedText) in
      match exec addressCleanupRegex afterMatch with
      | Some addressSuffix =>
          pc ++ replace_first trailingSeparatorsRegex [] (f_hit addressSuffix)
      | None => pc
      end
  end.

Definition potentialCoords (normalizedText : text) : list number :=
  map (fun n => parseFloat (replace_char ch_comma ch_dot n))
      (match_all allNumbersRegex normalizedText).

Definition in_lat (n : number) : bool := num_ge n 23 && num_le n 37.
Definition in_lon (n : number) : bool := num_ge n 60 && num_le n 78.

(** [if (cands.length > 0) field = cands[0].toString()]: indexing past the
    end gives [undefined], on which the method call throws. *)
Definition first_to_string (cands : list number) : outcome text :=
  if Nat.ltb 0 (length cands) then
    match nth_error cands 0 with
    | Some n => Ok (number_to_string n)
    | None => Throw (u "TypeError")
    end
  else Ok NotFound.

Definition extractLatitude (normalizedText : text) : outcome text :=
  first_to_string (filter in_lat (potentialCoords normalizedText)).

Definition extractLongitude (normalizedText : text) : outcome text :=
  first_to_string (filter in_lon (potentialCoords normalizedText)).

(** The [for ... of] loop with [break]. *)
Fixpoint first_timestamp (patterns : list regex) (normalizedText : text) : text :=
  match patterns with
  | [] => NotFound
  | pattern :: rest =>
      match exec pattern normalizedText with
      | Some mt => trim (group 1 mt ++ ch_space :: group 2 mt)
      | None => first_timestamp rest normalizedText
      end
  end.

Definition extractTimestamp (normalizedText : text) : text :=
  first_timestamp timestampPatterns normalizedText.

(** The body of [processImage] after recognition: from the recognised
    [text] to the returned record. *)
Definition extractFields (name : text) (raw : text) : outcome ExtractedData :=
  let normalizedText := normalize raw in
  let finalPlusCode := extractPlusCode normalizedText in
  let! lat := extractLatitude normalizedText in
  let! lon := extractLongitude normalizedText in
  let finalTimestamp := extractTimestamp normalizedText in
  Ok (mkExtractedData name finalPlusCode lat lon finalTimestamp raw).



(** * Semantics of patterns *)

(** The continuation handed to the body of a quantifier. *)
Definition rep_cont (mb : matcher) (fuel lo : nat) (hi : option nat)
           (s : text) (k : cont) : cont :=
  fun s1 c1 =>
    if Nat.eqb lo 0 && Nat.eqb (length s1) (length s) then None
    else repeat_matcher mb fuel (Nat.pred lo) (pred_bound hi) s1 c1 k.

(** [M total r s c s' c']: from input [s] with captures [c], pattern [r] can
    consume a prefix of [s], leaving [s'] and captures [c'].  The rules
    are the paths the backtracking matcher explores. *)
Inductive M (total : nat) : regex -> text -> caps -> text -> caps -> Prop :=
| M_eps : forall s c, M total Eps s c s c
| M_chr : forall p a s c, p a = true -> M total (Chr p) (a :: s) c s c
| M_bol : forall s c, length s = total -> M total Bol s c s c
| M_eol : forall c, M total Eol [] c [] c
| M_seq : forall r1 r2 s c s1 c1 s2 c2,
    M total r1 s c s1 c1 -> M total r2 s1 c1 s2 c2 -> M total (Seq r1 r2) s c s2 c2
| M_alt_l : forall r1 r2 s c s' c', M total r1 s c s' c' -> M total (Alt r1 r2) s c s' c'
| M_alt_r : forall r1 r2 s c s' c', M total r2 s c s' c' -> M total (Alt r1 r2) s c s' c'
| M_group : forall i r s c s' c',
    M total r s c s' c' -> M total (Group i r) s c s' ((i, consumed s s') :: c')
| M_rep_zero : forall lo r s c, M total (Rep lo (Some 0) r) s c s c
| M_rep_stop : forall hi r s c, hi <> Some 0 -> M total (Rep 0 hi r) s c s c
| M_rep_step : forall lo hi r s c s1 c1 s2 c2,
    hi <> Some 0 ->
    M total r s c s1 c1 ->
    (lo <> 0 \/ length s1 <> length s) ->
    M total (Rep (Nat.pred lo) (pred_bound hi) r) s1 c1 s2 c2 ->
    M total (Rep lo hi r) s c s2 c2.

Definition succeeds (o : option mres) : Prop := exists z, o = Some z.

Definition within (n : nat) (hi : option nat) : Prop :=
  match hi with
  | Some h => n <= h
  | None => True
  end.

(** [den r w]: the string [w] belongs to the language of [r] (assertions
    and capture numbers play no part). *)
Fixpoint den (r : regex) (w : text) : Prop :=
  match r with
  | Eps | Bol | Eol => w = []
  | Chr p => exists a, w = [a] /\ p a = true
  | Seq r1 r2 => exists w1 w2, w = w1 ++ w2 /\ den r1 w1 /\ den r2 w2
  | Alt r1 r2 => den r1 w \/ den r2 w
  | Rep lo hi r1 =>
      exists ws, w = concat ws /\ Forall (den r1) ws /\
                 lo <= length ws /\ within (length ws) hi
  | Group _ r1 => den r1 w
  end.

Fixpoint nullable (r : regex) : bool :=
  match r with
  | Eps | Bol | Eol => true
  | Chr _ => false
  | Seq r1 r2 => nullable r1 && nullable r2
  | Alt r1 r2 => nullable r1 || nullable r2
  | Rep lo _ r1 => Nat.eqb lo 0 || nullable r1
  | Group _ r1 => nullable r1
  end.

Definition bound_ok (lo : nat) (hi : option nat) : bool :=
  match hi with
  | Some h => Nat.leb lo h
  | None => true
  end.

(** Patterns without assertions, whose quantifier bounds are consistent and
    whose quantified bodies cannot match the empty string. *)
Fixpoint plain (r : regex) : bool :=
  match r with
  | Eps | Chr _ => true
  | Bol | Eol => false
  | Seq r1 r2 | Alt r1 r2 => plain r1 && plain r2
  | Rep lo hi r1 => bound_ok lo hi && negb (nullable r1) && plain r1
  | Group _ r1 => plain r1
  end.

(** [P] holds of some substring of [t]. *)
Definition occurs (P : text -> Prop) (t : text) : Prop :=
  exists pre w post, t = pre ++ w ++ post /\ P w.

Fixpoint no_groups (r : regex) : bool :=
  match r with
  | Eps | Chr _ | Bol | Eol => true
  | Seq r1 r2 | Alt r1 r2 => no_groups r1 && no_groups r2
  | Rep _ _ r1 => no_groups r1
  | Group _ _ => false
  end.


(** [w] is made of between [lo] and [hi] characters of class [p]. *)
Definition run (p : char -> bool) (lo hi : nat) (w : text) : Prop :=
  forallb p w = true /\ lo <= length w <= hi.

(** [w] is made of at least [lo] characters of class [p]. *)
Definition run_from (p : char -> bool) (lo : nat) (w : text) : Prop :=
  forallb p w = true /\ lo <= length w.

(** ** The shapes the specification names *)


(** 4-8 alphanumerics, a plus sign, 2-4 alphanumerics, in either case. *)
Definition plus_code_token (w : text) : Prop :=
  exists a b,
    w = a ++ ch_plus :: b /\ run is_alnum 4 8 a /\ run is_alnum 2 4 b.

(** Three groups of digits (1-2, 1-2, 2-4) separated by slashes. *)
Definition date_shape (w : text) : Prop :=
  exists d mo y,
    w = d ++ ch_slash :: mo ++ ch_slash :: y /\
    run is_digit 1 2 d /\ run is_digit 1 2 mo /\ run is_digit 2 4 y.

(** Nothing, or a colon and two digits. *)
Definition seconds_part (sec : text) : Prop :=
  sec = [] \/ exists ss, sec = ch_colon :: ss /\ run is_digit 2 2 ss.

(** Hours of [lo] to [hi] digits, a colon, two digits, optional seconds. *)
Definition clock_shape (lo hi : nat) (w : text) : Prop :=
  exists h mi sec,
    w = h ++ ch_colon :: mi ++ sec /\
    run is_digit lo hi h /\ run is_digit 2 2 mi /\ seconds_part sec.

(** AM or PM, in either case. *)
Definition marker (w : text) : Prop :=
  exists a b,
    w = [a; b] /\
    (is_letter_ci ch_A a = true \/ is_letter_ci ch_P a = true) /\
    is_letter_ci ch_M b = true.

Definition opt_space (sp : text) : Prop :=
  sp = [] \/ exists a, sp = [a] /\ is_space a = true.

(** A 12-hour time: clock, optional space, then the marker. *)
Definition time_marked (w : text) : Prop :=
  exists clk sp mk,
    w = clk ++ sp ++ mk /\ clock_shape 1 2 clk /\ opt_space sp /\ marker mk.

(** A clock, optional space, and possibly the marker. *)
Definition time_opt_marker (w : text) : Prop :=
  exists clk sp mk,
    w = clk ++ sp ++ mk /\ clock_shape 1 2 clk /\ opt_space sp /\
    (mk = [] \/ marker mk).

(** [A], white space, [B] somewhere in [t]. *)
Definition two_part (A B : text -> Prop) (t : text) : Prop :=
  exists pre g1 ws g2 post,
    t = pre ++ g1 ++ ws ++ g2 ++ post /\ A g1 /\ run_from is_space 1 ws /\ B g2.

(** The four timestamp shapes, in the order they are tried. *)
Definition timestampShapes : list ((text -> Prop) * (text -> Prop)) :=
  [ (time_marked, date_shape);
    (date_shape, time_opt_marker);
    (clock_shape 2 2, date_shape);
    (date_shape, clock_shape 2 2) ].

(** ** Tasks: state and exceptions

    The browser state that [processImage], [onDrop] and [exportToCSV] read
    and write, threaded explicitly. *)

Record File : Type := mkFile {
  file_name : text;
  file_blob : N
}.

Record download : Type := mkDownload {
  dl_name : text;
  dl_content : text
}.

Record world : Type := mkWorld {
  console : list (text * text);     (* console.error(label, error) calls, oldest first *)
  object_urls : list N;             (* object URLs created and not revoked *)
  next_url : N;
  processing : bool;
  totalFiles : nat;
  completedCount : nat;
  downloads : list download;        (* files handed to the user, oldest first *)
  clock : N                         (* new Date().getTime() *)
}.

Definition task (A : Type) : Type := world -> outcome A * world.

Definition ret {A : Type} (a : A) : task A := fun w => (Ok a, w).
Definition throw {A : Type} (e : text) : task A := fun w => (Throw e, w).

Definition tbind {A B : Type} (x : task A) (f : A -> task B) : task B :=
  fun w =>
    match x w with
    | (Ok a, w') => f a w'
    | (Throw e, w') => (Throw e, w')
    end.

(** [try { body } catch (error) { handler }] *)
Definition try_catch {A : Type} (body : task A) (handler : text -> task A) : task A :=
  fun w =>
    match body w with
    | (Ok a, w') => (Ok a, w')
    | (Throw e, w') => handler e w'
    end.

Declare Scope task_scope.
Delimit Scope task_scope with task.
Notation "'let*' x ':=' e1 'in' e2" := (tbind e1 (fun x => e2))
  (at level 10, x name, e1 at level 100, e2 at level 200) : task_scope.
Notation "e1 >> e2" := (tbind e1 (fun _ => e2))
  (at level 61, right associativity) : task_scope.

Definition lift {A : Type} (o : outcome A) : task A := fun w => (o, w).

Definition update_console (f : list (text * text) -> list (text * text)) (w : world) : world :=
  mkWorld (f (console w)) (object_urls w) (next_url w) (processing w)
          (totalFiles w) (completedCount w) (downloads w) (clock w).

Definition console_error (label error : text) : task unit :=
  fun w => (Ok tt, update_console (fun c => c ++ [(label, error)]) w).

Definition createObjectURL : task N :=
  fun w => (Ok (next_url w),
            mkWorld (console w) (next_url w :: object_urls w) (N.succ (next_url w))
                    (processing w) (totalFiles w) (completedCount w)
                    (downloads w) (clock w)).

Definition revokeObjectURL (url : N) : task unit :=
  fun w => (Ok tt,
            mkWorld (console w) (filter (fun x => negb (N.eqb x url)) (object_urls w))
                    (next_url w) (processing w) (totalFiles w) (completedCount w)
                    (downloads w) (clock w)).

Definition setProcessing (b : bool) : task unit :=
  fun w => (Ok tt, mkWorld (console w) (object_urls w) (next_url w) b
                           (totalFiles w) (completedCount w) (downloads w) (clock w)).

Definition setTotalFiles (n : nat) : task unit :=
  fun w => (Ok tt, mkWorld (console w) (object_urls w) (next_url w) (processing w)
                           n (completedCount w) (downloads w) (clock w)).

Definition setCompletedCount (f : nat -> nat) : task unit :=
  fun w => (Ok tt, mkWorld (console w) (object_urls w) (next_url w) (processing w)
                           (totalFiles w) (f (completedCount w)) (downloads w) (clock w)).

Definition getTime : task N := fun w => (Ok (clock w), w).

Definition save (d : download) : task unit :=
  fun w => (Ok tt, mkWorld (console w) (object_urls w) (next_url w) (processing w)
                           (totalFiles w) (completedCount w) (downloads w ++ [d]) (clock w)).

(** ** The recognition engine, as seen from [processImage]

    What the two awaited calls of [processImage] do for a given file is the
    engine's business; the three ways they can go are the cases here. *)
Inductive recognition : Type :=
| SchedulerRejects : text -> recognition     (* await getScheduler() throws *)
| JobRejects : text -> recognition           (* await addJob("recognize", url) throws *)
| JobResolves : text -> recognition.         (* data.text *)

Definition engine : Type := File -> recognition.

Local Open Scope task_scope.

(** [processImage] of ocr.ts *)
Definition processImage (eng : engine) (file : File) : task ExtractedData :=
  (match eng file with
   | SchedulerRejects e => throw e
   | _ => ret tt
   end) >>
  let* imageUrl := createObjectURL in
  try_catch
    (let* text_ := (match eng file with
                    | JobResolves txt => ret txt
                    | JobRejects e => throw e
                    | SchedulerRejects e => throw e
                    end) in
     revokeObjectURL imageUrl >>
     lift (extractFields (file_name file) text_))
    (fun error =>
       revokeObjectURL imageUrl >>
       console_error (u "OCR Error:") error >>
       throw error).

(** The callback of [acceptedFiles.map] in [onDrop]: the promise it returns
    always resolves, to the record or to [null]. *)
Definition processOne (eng : engine) (file : File) : task (option ExtractedData) :=
  try_catch
    (let* result := processImage eng file in
     setCompletedCount S >>
     ret (Some result))
    (fun error =>
       console_error (u "Error processing " ++ file_name file ++ u ":") error >>
       setCompletedCount S >>
       ret None).

(** [await Promise.all(promises)]: the values in the order of the promises.
    The effects of the tasks are taken in index order here; the order in
    which the real promises settle changes the order of console lines only. *)
Fixpoint promise_all {A : Type} (ts : list (task A)) : task (list A) :=
  match ts with
  | [] => ret []
  | t :: rest =>
      let* a := t in
      let* more := promise_all rest in
      ret (a :: more)
  end.

(** [results.filter(r => r !== null)] *)
Fixpoint non_null {A : Type} (xs : list (option A)) : list A :=
  match xs with
  | [] => []
  | Some a :: rest => a :: non_null rest
  | None :: rest => non_null rest
  end.

(** An object literal: keys and values in insertion order. *)
Definition js_object : Type := list (text * text).

Definition csv_row (item : ExtractedData) : js_object :=
  [ (u "Location/Plus Code", plusCode item);
    (u "Latitude", latitude item);
    (u "Longitude", longitude item);
    (u "Timestamp", timestamp item);
    (u "PICS", imageName item) ].

(** [exportToCSV] of csv.ts; [unparse] is Papa.unparse. *)
Definition exportToCSV (unparse : list js_object -> text) (data : list ExtractedData)
  : task unit :=
  let csvData := map csv_row data in
  let csv := unparse csvData in
  let* _url := createObjectURL in
  let* now := getTime in
  save (mkDownload (u "extracted_manhole_data_" ++ number_to_string (Num (Dec (Z.of_N now) 0))
                      ++ u ".csv") csv).

(** The results awaited by [onDrop]. *)
Definition awaitResults (eng : engine) (acceptedFiles : list File)
  : task (list (option ExtractedData)) :=
  promise_all (map (processOne eng) acceptedFiles).

(** [onDrop] of App.tsx *)
Definition onDrop (eng : engine) (unparse : list js_object -> text)
           (acceptedFiles : list File) : task unit :=
  setProcessing true >>
  setTotalFiles (length acceptedFiles) >>
  setCompletedCount (fun _ => 0) >>
  let* results := awaitResults eng acceptedFiles in
  let finalResults := non_null results in
  (if Nat.ltb 0 (length finalResults)
   then exportToCSV unparse finalResults
   else ret tt) >>
  setProcessing false >>
  setTotalFiles 0 >>
  setCompletedCount (fun _ => 0).

Local Close Scope task_scope.

(** ** The worker pool ([getScheduler] of ocr.ts)

    JavaScript runs one callback at a time; a call of the async function
    runs up to its first [await] in one piece, and each resumption after an
    [await] is a later callback.  The events below are those pieces. *)

Definition WORKER_COUNT : nat := 3.

(** What a settled call of [getScheduler] gave its caller: the scheduler,
    seen with the number of workers it holds at that moment, or the error. *)
Inductive reply : Type :=
| GotScheduler : nat -> reply
| Rejected : text -> reply.

Record pool : Type := mkPool {
  scheduler : option (list nat);    (* the module variable; the workers added so far *)
  constructions : nat;              (* createWorker calls made so far *)
  in_flight : list nat;             (* workers being created *)
  waiting : option nat;             (* the caller suspended at Promise.all *)
  replies : list (nat * reply)      (* settled calls, oldest first *)
}.

Definition pool_init : pool := mkPool None 0 [] None [].

Inductive pool_event : Type :=
| Call : nat -> pool_event                  (* caller id invokes getScheduler() *)
| WorkerReady : nat -> pool_event           (* createWorker resolves for worker id *)
| WorkerFails : nat -> text -> pool_event.  (* createWorker rejects for worker id *)

Definition mem (x : nat) (l : list nat) : bool := existsb (Nat.eqb x) l.
Definition remove_nat (x : nat) (l : list nat) : list nat :=
  filter (fun y => negb (Nat.eqb x y)) l.

Definition pool_step (p : pool) (ev : pool_event) : pool :=
  match ev with
  | Call caller =>
      match scheduler p with
      | Some ws =>
          (* if (scheduler) return scheduler; *)
          mkPool (scheduler p) (constructions p) (in_flight p) (waiting p)
                 (replies p ++ [(caller, GotScheduler (length ws))])
      | None =>
          (* scheduler = createScheduler(); the initializers start; await Promise.all *)
          mkPool (Some []) (constructions p + WORKER_COUNT)
                 (seq (constructions p) WORKER_COUNT) (Some caller) (replies p)
      end
  | WorkerReady wk =>
      if mem wk (in_flight p) then
        (* scheduler!.addWorker(worker) *)
        let ws := match scheduler p with Some ws => ws ++ [wk] | None => [wk] end in
        let rest := remove_nat wk (in_flight p) in
        match rest, waiting p with
        | [], Some caller =>
            (* Promise.all resolves: return scheduler *)
            mkPool (Some ws) (constructions p) rest None
                   (replies p ++ [(caller, GotScheduler (length ws))])
        | _, _ => mkPool (Some ws) (constructions p) rest (waiting p) (replies p)
        end
      else p
  | WorkerFails wk e =>
      if mem wk (in_flight p) then
        let rest := remove_nat wk (in_flight p) in
        match waiting p with
        | Some caller =>
            (* Promise.all rejects with the first error; the call throws *)
            mkPool (scheduler p) (constructions p) rest None
                   (replies p ++ [(caller, Rejected e)])
        | None => mkPool (scheduler p) (constructions p) rest None (replies p)
        end
      else p
  end.

Definition pool_run (evs : list pool_event) (p : pool) : pool :=
  fold_left pool_step evs p.

(** ** Vocabulary of the statements *)

(** The value of a field taken from the head of a candidate list. *)
Definition selected (cands : list number) : text :=
  match cands with
  | [] => NotFound
  | n :: _ => number_to_string n
  end.




(** The two captured parts of each timestamp pattern. *)
Definition timestampParts : list (regex * regex) :=
  [ (Seq (clockRegex 1 2) (Seq (Opt space) ampm), dateRegex);
    (dateRegex, Seq (clockRegex 1 2) (Seq (Opt space) (Opt ampm)));
    (clockRegex 2 2, dateRegex);
    (dateRegex, clockRegex 2 2) ].

Definition two_groups (ab : regex * regex) : regex :=
  Seq (Group 1 (fst ab)) (Seq (Plus space) (Group 2 (snd ab))).

(** The plus-code field as the specification words it (4.2, step 2), kept
    apart from [extractPlusCode] to compare the two: the address suffix is
    read from the text that starts immediately after the match. *)
Definition address_suffix (after : text) : text :=
  match exec addressCleanupRegex after with
  | Some m => replace_first trailingSeparatorsRegex [] (f_hit m)
  | None => []
  end.

Definition plusCode_spec (normalizedText : text) : text :=
  match exec simplePlusCodeRegex normalizedText with
  | None => NotFound
  | Some m => f_hit m ++ address_suffix (f_post m)
  end.


(** A pair of patterns and the pair of shapes that describe them. *)
Definition agrees (ab : regex * regex) (AB : (text -> Prop) * (text -> Prop)) : Prop :=
  plain (fst ab) = true /\ plain (snd ab) = true /\
  no_groups (fst ab) = true /\ no_groups (snd ab) = true /\
  (forall w, den (fst ab) w <-> fst AB w) /\
  (forall w, den (snd ab) w <-> snd AB w).

(** The entry of the result array for one file: the record, or [null]. *)
Definition entry_of (eng : engine) (file : File) : option ExtractedData :=
  match eng file with
  | JobResolves txt =>
      match extractFields (file_name file) txt with
      | Ok r => Some r
      | Throw _ => None
      end
  | _ => None
  end.

(** The console lines one file leaves behind. *)
Definition log_of (eng : engine) (file : File) : list (text * text) :=
  let outer e := (u "Error processing " ++ file_name file ++ u ":", e) in
  match eng file with
  | SchedulerRejects e => [outer e]
  | JobRejects e => [(u "OCR Error:", e); outer e]
  | JobResolves txt =>
      match extractFields (file_name file) txt with
      | Ok _ => []
      | Throw e => [(u "OCR Error:", e); outer e]
      end
  end.

(** The file name [exportToCSV] gives a download made at time [now]. *)
Definition csv_name (now : N) : text :=
  u "extracted_manhole_data_" ++ number_to_string (Num (Dec (Z.of_N now) 0)) ++ u ".csv".

(** The pool invariant: engines are constructed when, and only when, the
    module variable is first set. *)
Definition pool_inv (p : pool) : Prop :=
  (scheduler p = None /\ constructions p = 0 /\ in_flight p = []) \/
  (scheduler p <> None /\ constructions p = WORKER_COUNT).

Definition file_a : File := mkFile (u "a.png") 1.
Definition file_b : File := mkFile (u "b.png") 2.




(** The pool after a first call whose three workers all became ready. *)
Definition pool_ready : pool :=
  pool_run [Call 0; WorkerReady 0; WorkerReady 1; WorkerReady 2] pool_init.

(** * Semantics of the matcher *)


Lemma repeat_matcher_zero : forall mb fuel lo s c k,
  repeat_matcher mb (S fuel) lo (Some 0) s c k = k s c.
Proof. reflexivity. Qed.

Lemma repeat_matcher_step : forall mb fuel lo hi s c k,
  hi <> Some 0 ->
  repeat_matcher mb (S fuel) lo hi s c k =
  if Nat.eqb lo 0 then
    match mb s c (rep_cont mb fuel lo hi s k) with
    | Some z => Some z
    | None => k s c
    end
  else mb s c (rep_cont mb fuel lo hi s k).
Proof.
  intros mb fuel lo hi s c k Hhi.
  destruct hi as [[|h]|]; [congruence | reflexivity | reflexivity].
Qed.

Section MatcherSemantics.
Variable total : nat.



Lemma M_suffix : forall r s c s' c',
  M total r s c s' c' -> exists w, s = w ++ s'.
Proof.
  induction 1;
    try (exists []; reflexivity);
    try assumption.
  - exists [a]; reflexivity.
  - destruct IHM1 as [w1 E1], IHM2 as [w2 E2]; subst.
    exists (w1 ++ w2); now rewrite app_assoc.
  - destruct IHM1 as [w1 E1], IHM2 as [w2 E2]; subst.
    exists (w1 ++ w2); now rewrite app_assoc.
Qed.

Lemma M_length : forall r s c s' c',
  M total r s c s' c' -> length s' <= length s.
Proof.
  intros * H; apply M_suffix in H as [w ->]; rewrite length_app; lia.
Qed.


(** *** Soundness: every answer of the matcher is a path of [M] *)

Lemma repeat_sound : forall r1,
  (forall s c k z, m total r1 s c k = Some z ->
     exists s' c', M total r1 s c s' c' /\ k s' c' = Some z) ->
  forall fuel lo hi s c k z,
    repeat_matcher (m total r1) fuel lo hi s c k = Some z ->
    exists s' c', M total (Rep lo hi r1) s c s' c' /\ k s' c' = Some z.
Proof.
  intros r1 Hb; induction fuel as [|fuel IH]; intros lo hi s c k z H;
    [discriminate|].
  assert (Hdec : hi = Some 0 \/ hi <> Some 0)
    by (destruct hi as [[|h]|]; [now left | right; discriminate | right; discriminate]).
  destruct Hdec as [Hz|Hnz].
  { subst hi. rewrite repeat_matcher_zero in H.
    exists s, c; split; [apply M_rep_zero | exact H]. }
  rewrite repeat_matcher_step in H by exact Hnz.
  assert (Hstep : forall z0,
    m total r1 s c (rep_cont (m total r1) fuel lo hi s k) = Some z0 ->
    exists s' c', M total (Rep lo hi r1) s c s' c' /\ k s' c' = Some z0).
  { intros z0 Hm. apply Hb in Hm as (s1 & c1 & HM & Hd).
    unfold rep_cont in Hd.
    destruct (Nat.eqb lo 0 && Nat.eqb (length s1) (length s)) eqn:E;
      [discriminate|].
    apply IH in Hd as (s2 & c2 & HM2 & Hk).
    exists s2, c2; split; [|exact Hk].
    eapply M_rep_step; eauto.
    apply andb_false_iff in E as [E|E];
      [left; now apply Nat.eqb_neq in E | right; now apply Nat.eqb_neq in E]. }
  destruct (Nat.eqb lo 0) eqn:Elo.
  - destruct (m total r1 s c _) eqn:Em in H.
    + injection H as ->. now apply Hstep.
    + apply Nat.eqb_eq in Elo; subst lo.
      exists s, c; split; [now apply M_rep_stop | exact H].
  - now apply Hstep.
Qed.

Theorem m_sound : forall r s c k z,
  m total r s c k = Some z ->
  exists s' c', M total r s c s' c' /\ k s' c' = Some z.
Proof.
  induction r as [| p | | | r1 IH1 r2 IH2 | r1 IH1 r2 IH2 | lo hi r1 IH1 | i r1 IH1];
    intros s c k z H; cbn [m] in H.
  - exists s, c; split; [constructor | exact H].
  - destruct s as [|a s']; [discriminate|].
    destruct (p a) eqn:Ep; [|discriminate].
    exists s', c; split; [now constructor | exact H].
  - destruct (Nat.eqb (length s) total) eqn:E; [|discriminate].
    apply Nat.eqb_eq in E.
    exists s, c; split; [now constructor | exact H].
  - destruct s; [|discriminate].
    exists [], c; split; [constructor | exact H].
  - apply IH1 in H as (s1 & c1 & HM1 & H).
    apply IH2 in H as (s2 & c2 & HM2 & H).
    exists s2, c2; split; [eapply M_seq; eauto | exact H].
  - destruct (m total r1 s c k) eqn:E1.
    + injection H as ->. apply IH1 in E1 as (s1 & c1 & HM & Hk).
      exists s1, c1; split; [now apply M_alt_l | exact Hk].
    + apply IH2 in H as (s1 & c1 & HM & Hk).
      exists s1, c1; split; [now apply M_alt_r | exact Hk].
  - eapply repeat_sound; eauto.
  - apply IH1 in H as (s1 & c1 & HM & Hk).
    exists s1, ((i, consumed s s1) :: c1); split; [now constructor | exact Hk].
Qed.

(** *** Completeness: a path of [M] whose continuation succeeds makes the
    matcher succeed; in particular the fuel of a quantifier never runs out
    on such a path. *)

Lemma m_complete_gen : forall r s c s' c',
  M total r s c s' c' ->
  forall k, succeeds (k s' c') ->
    succeeds (m total r s c k) /\
    (forall lo hi r1, r = Rep lo hi r1 ->
       forall fuel, lo + length s < fuel ->
         succeeds (repeat_matcher (m total r1) fuel lo hi s c k)).
Proof.
  induction 1; intros k Hk.
  - split; [exact Hk | discriminate].
  - split; [cbn; rewrite H; exact Hk | discriminate].
  - split; [cbn; rewrite <- H, Nat.eqb_refl; exact Hk | discriminate].
  - split; [exact Hk | discriminate].
  - split; [|discriminate]. cbn.
    apply IHM1. apply IHM2. exact Hk.
  - split; [|discriminate]. cbn.
    destruct (IHM k Hk) as [[z Hz] _]. rewrite Hz. now exists z.
  - split; [|discriminate]. cbn.
    destruct (m total r1 s c k) as [z|]; [now exists z|].
    apply IHM. exact Hk.
  - split; [|discriminate]. cbn.
    apply IHM. exact Hk.
  - assert (G : forall fuel, lo + length s < fuel ->
              succeeds (repeat_matcher (m total r) fuel lo (Some 0) s c k)).
    { intros [|fuel] Hf; [lia|]. exact Hk. }
    split; [cbn [m]; apply G; lia|].
    intros lo' hi' r1 E; injection E as -> <- ->. exact G.
  - assert (G : forall fuel, 0 + length s < fuel ->
              succeeds (repeat_matcher (m total r) fuel 0 hi s c k)).
    { intros [|fuel] Hf; [lia|].
      rewrite repeat_matcher_step by exact H. cbn [Nat.eqb].
      destruct (m total r s c _) as [z|]; [now exists z | exact Hk]. }
    split; [cbn [m]; apply G; lia|].
    intros lo' hi' r1 E; injection E as <- <- ->. exact G.
  - assert (G : forall fuel, lo + length s < fuel ->
              succeeds (repeat_matcher (m total r) fuel lo hi s c k)).
    { intros [|fuel] Hf; [lia|].
      pose proof (M_length _ _ _ _ _ H0) as Hlen.
      assert (Hd : succeeds (rep_cont (m total r) fuel lo hi s k s1 c1)).
      { unfold rep_cont.
        replace (Nat.eqb lo 0 && Nat.eqb (length s1) (length s)) with false.
        - destruct (IHM2 k Hk) as [_ G2].
          apply (G2 _ _ _ eq_refl). lia.
        - symmetry; apply andb_false_iff.
          destruct H1 as [H1|H1];
            [left | right]; now apply Nat.eqb_neq. }
      destruct (IHM1 _ Hd) as [[z Hz] _].
      rewrite repeat_matcher_step by exact H.
      rewrite Hz; destruct (Nat.eqb lo 0); now exists z. }
    split; [cbn [m]; apply G; lia|].
    intros lo' hi' r1 E; injection E as <- <- <-. exact G.
Qed.

Theorem m_complete : forall r s c s' c' k,
  M total r s c s' c' -> succeeds (k s' c') -> succeeds (m total r s c k).
Proof.
  intros * HM Hk. now apply (m_complete_gen _ _ _ _ _ HM).
Qed.

End MatcherSemantics.

(** * The language of a pattern *)







Lemma consumed_app : forall w s', consumed (w ++ s') s' = w.
Proof.
  intros w s'. unfold consumed. rewrite length_app.
  replace (length w + length s' - length s') with (length w) by lia.
  rewrite firstn_app. rewrite Nat.sub_diag. cbn. rewrite firstn_all. apply app_nil_r.
Qed.

Lemma nullable_false_nonempty : forall r w,
  nullable r = false -> den r w -> w <> [].
Proof.
  induction r as [| p | | | r1 IH1 r2 IH2 | r1 IH1 r2 IH2 | lo hi r1 IH1 | i r1 IH1];
    cbn [nullable den]; intros w Hn Hd; try discriminate.
  - destruct Hd as (a & -> & _). discriminate.
  - destruct Hd as (w1 & w2 & -> & H1 & H2).
    apply andb_false_iff in Hn as [Hn|Hn].
    + specialize (IH1 _ Hn H1). destruct w1; [congruence | discriminate].
    + specialize (IH2 _ Hn H2). destruct w2; [congruence|].
      destruct w1; discriminate.
  - apply orb_false_iff in Hn as [Hn1 Hn2]. destruct Hd; eauto.
  - apply orb_false_iff in Hn as [Hlo Hn].
    apply Nat.eqb_neq in Hlo.
    destruct Hd as (ws & -> & Hall & Hlen & _).
    destruct ws as [|w1 ws]; [cbn in Hlen; lia|].
    inversion Hall as [|? ? Hw1 _]; subst.
    specialize (IH1 _ Hn Hw1). cbn. destruct w1; [congruence | discriminate].
  - eauto.
Qed.

Section Language.
Variable total : nat.

(** A path of the matcher consumes a word of the language. *)
Lemma M_den : forall r s c s' c',
  M total r s c s' c' -> plain r = true ->
  exists w, s = w ++ s' /\ den r w.
Proof.
  induction 1; cbn [plain]; intros Hp; try discriminate.
  - exists []; split; reflexivity.
  - exists [a]; split; [reflexivity|]. exists a; auto.
  - apply andb_true_iff in Hp as [Hp1 Hp2].
    destruct (IHM1 Hp1) as (w1 & -> & Hd1).
    destruct (IHM2 Hp2) as (w2 & -> & Hd2).
    exists (w1 ++ w2); split; [now rewrite app_assoc|].
    exists w1, w2; auto.
  - apply andb_true_iff in Hp as [Hp1 Hp2].
    destruct (IHM Hp1) as (w & -> & Hd). exists w; split; [reflexivity | now left].
  - apply andb_true_iff in Hp as [Hp1 Hp2].
    destruct (IHM Hp2) as (w & -> & Hd). exists w; split; [reflexivity | now right].
  - destruct (IHM Hp) as (w & -> & Hd). exists w; split; [reflexivity | exact Hd].
  - apply andb_true_iff in Hp as [Hp _]. apply andb_true_iff in Hp as [Hb _].
    cbn in Hb. apply Nat.leb_le in Hb.
    exists []; split; [reflexivity|].
    exists []; cbn; repeat split; auto; lia.
  - exists []; split; [reflexivity|].
    exists []; cbn; repeat split; auto.
    destruct hi; cbn; [lia | exact I].
  - pose proof Hp as Hp'.
    apply andb_true_iff in Hp as [Hp Hp1]. apply andb_true_iff in Hp as [Hb Hnn].
    destruct (IHM1 Hp1) as (w1 & -> & Hd1).
    assert (Hp2 : plain (Rep (Nat.pred lo) (pred_bound hi) r) = true).
    { cbn [plain]. rewrite Hnn, Hp1, !andb_true_r.
      destruct hi as [h|]; cbn in *; [|reflexivity].
      apply Nat.leb_le in Hb. apply Nat.leb_le. lia. }
    destruct (IHM2 Hp2) as (w2 & -> & ws & -> & Hall & Hlo & Hhi).
    exists (w1 ++ concat ws); split; [now rewrite app_assoc|].
    exists (w1 :: ws); cbn [concat length]; repeat split; auto.
    + lia.
    + destruct hi as [h|]; cbn in *; [|exact I].
      destruct h; [congruence | lia].
Qed.

(** Every word of the language is consumed by some path of the matcher. *)
Lemma den_rep_M : forall r1,
  nullable r1 = false ->
  (forall w, den r1 w -> forall s' c, exists c', M total r1 (w ++ s') c s' c') ->
  forall ws lo hi,
    Forall (den r1) ws -> lo <= length ws -> within (length ws) hi ->
    forall s' c, exists c', M total (Rep lo hi r1) (concat ws ++ s') c s' c'.
Proof.
  intros r1 Hn Hb. induction ws as [|w1 ws IH]; intros lo hi Hall Hlo Hhi s' c.
  - cbn in *. assert (lo = 0) by lia; subst lo. exists c.
    destruct hi as [[|h]|];
      [apply M_rep_zero | apply M_rep_stop; discriminate | apply M_rep_stop; discriminate].
  - inversion Hall as [|? ? Hw1 Hws]; subst.
    cbn [concat]. rewrite <- app_assoc.
    destruct (Hb _ Hw1 (concat ws ++ s') c) as [c1 HM1].
    destruct (IH (Nat.pred lo) (pred_bound hi) Hws) with (s' := s') (c := c1)
      as [c2 HM2].
    + cbn in Hlo. lia.
    + destruct hi as [h|]; cbn [within pred_bound option_map length] in *;
        [lia | exact I].
    + exists c2. eapply M_rep_step; eauto.
      * destruct hi as [[|h]|]; cbn in Hhi; [lia | discriminate | discriminate].
      * right. pose proof (nullable_false_nonempty _ _ Hn Hw1) as Hne.
        destruct w1; [congruence | cbn [length app]; rewrite !length_app; lia].
Qed.

Lemma den_M : forall r w,
  plain r = true -> den r w ->
  forall s' c, exists c', M total r (w ++ s') c s' c'.
Proof.
  induction r as [| p | | | r1 IH1 r2 IH2 | r1 IH1 r2 IH2 | lo hi r1 IH1 | i r1 IH1];
    cbn [plain den]; intros w Hp Hd s' c; try discriminate.
  - subst w. exists c. constructor.
  - destruct Hd as (a & -> & Ha). exists c. now constructor.
  - apply andb_true_iff in Hp as [Hp1 Hp2].
    destruct Hd as (w1 & w2 & -> & H1 & H2).
    rewrite <- app_assoc.
    destruct (IH1 _ Hp1 H1 (w2 ++ s') c) as [c1 HM1].
    destruct (IH2 _ Hp2 H2 s' c1) as [c2 HM2].
    exists c2. eapply M_seq; eauto.
  - apply andb_true_iff in Hp as [Hp1 Hp2]. destruct Hd as [Hd|Hd].
    + destruct (IH1 _ Hp1 Hd s' c) as [c1 HM]. exists c1. now apply M_alt_l.
    + destruct (IH2 _ Hp2 Hd s' c) as [c1 HM]. exists c1. now apply M_alt_r.
  - apply andb_true_iff in Hp as [Hp Hp1]. apply andb_true_iff in Hp as [Hb Hnn].
    apply negb_true_iff in Hnn.
    destruct Hd as (ws & -> & Hall & Hlo & Hhi).
    apply den_rep_M; auto.
  - destruct (IH1 _ Hp Hd s' c) as [c1 HM].
    eexists. apply M_group. exact HM.
Qed.

(** *** One attempt, and the search for the leftmost match *)

Lemma match_here_sound : forall r s s' c',
  match_here total r s = Some (s', c') -> M total r s [] s' c'.
Proof.
  unfold match_here. intros r s s' c' H.
  apply m_sound in H as (s1 & c1 & HM & E). now injection E as <- <-.
Qed.

Lemma match_here_complete : forall r s s' c',
  M total r s [] s' c' -> succeeds (match_here total r s).
Proof.
  unfold match_here. intros r s s' c' H.
  eapply m_complete; eauto. now eexists.
Qed.

Lemma search_none : forall r s pre,
  search total r pre s = None ->
  forall p rest, s = p ++ rest -> match_here total r rest = None.
Proof.
  induction s as [|a s IH]; intros pre H p rest E; cbn [search] in H.
  - destruct (match_here total r []) as [[s' c']|] eqn:Em; [discriminate|].
    destruct p; [|discriminate]. cbn in E. now subst.
  - destruct (match_here total r (a :: s)) as [[s' c']|] eqn:Em; [discriminate|].
    destruct p as [|b p]; cbn in E.
    + now subst.
    + injection E as -> ->. eapply IH; eauto.
Qed.

Lemma search_some : forall r s pre f,
  search total r pre s = Some f ->
  exists p,
    s = p ++ f_hit f ++ f_post f /\
    f_pre f = pre ++ p /\
    M total r (f_hit f ++ f_post f) [] (f_post f) (f_caps f) /\
    (forall p1 rest1, s = p1 ++ rest1 -> length p1 < length p ->
       match_here total r rest1 = None).
Proof.
  intros r.
  assert (Hhere : forall s pre s' c',
    match_here total r s = Some (s', c') ->
    let f := Found pre (consumed s s') s' c' in
    s = [] ++ f_hit f ++ f_post f /\ f_pre f = pre ++ [] /\
    M total r (f_hit f ++ f_post f) [] (f_post f) (f_caps f) /\
    (forall p1 rest1, s = p1 ++ rest1 -> length p1 < length (@nil char) ->
       match_here total r rest1 = None)).
  { intros s pre s' c' Em. apply match_here_sound in Em.
    destruct (M_suffix _ _ _ _ _ _ Em) as [w ->]. cbn [f_hit f_post f_pre f_caps].
    rewrite consumed_app, app_nil_r. repeat split; auto.
    cbn; intros; lia. }
  induction s as [|a s IH]; intros pre f H; cbn [search] in H.
  - destruct (match_here total r []) as [[s' c']|] eqn:Em; [|discriminate].
    injection H as <-. exists []. now apply Hhere.
  - destruct (match_here total r (a :: s)) as [[s' c']|] eqn:Em.
    + injection H as <-. exists []. now apply Hhere.
    + apply IH in H as (p & Es & Epre & HM & Hleft).
      exists (a :: p). repeat split.
      * cbn. now f_equal.
      * rewrite Epre, <- app_assoc. reflexivity.
      * exact HM.
      * intros p1 rest1 E Hlt. destruct p1 as [|b p1]; cbn in E.
        -- now subst.
        -- injection E as -> E. eapply Hleft; eauto. cbn in Hlt. lia.
Qed.

End Language.

(** *** [exec] against the language of a plain pattern *)

Theorem exec_none : forall r t,
  plain r = true -> exec r t = None -> ~ occurs (den r) t.
Proof.
  intros r t Hp H (pre & w & post & E & Hd).
  unfold exec in H.
  pose proof (search_none _ _ _ _ H pre (w ++ post) E) as Hn.
  destruct (den_M (length t) r w Hp Hd post []) as [c' HM].
  apply match_here_complete in HM as [z Hz]. congruence.
Qed.

Theorem exec_some : forall r t f,
  plain r = true -> exec r t = Some f ->
  t = f_pre f ++ f_hit f ++ f_post f /\
  den r (f_hit f) /\
  M (length t) r (f_hit f ++ f_post f) [] (f_post f) (f_caps f) /\
  (forall pre w post, t = pre ++ w ++ post -> den r w ->
     length (f_pre f) <= length pre).
Proof.
  intros r t f Hp H. unfold exec in H.
  apply search_some in H as (p & Et & Epre & HM & Hleft).
  cbn in Epre. subst p.
  destruct (M_den _ _ _ _ _ _ HM Hp) as (w & Ew & Hd).
  apply app_inv_tail in Ew. subst w.
  repeat split; auto.
  intros pre w post E Hdw.
  destruct (Nat.le_gt_cases (length (f_pre f)) (length pre)) as [|Hlt]; [assumption|].
  specialize (Hleft _ _ E Hlt).
  destruct (den_M (length t) r w Hp Hdw post []) as [c' HM'].
  apply match_here_complete in HM' as [z Hz]. congruence.
Qed.

(** *** Captures are touched by groups only *)


Lemma M_no_groups : forall total r s c s' c',
  M total r s c s' c' -> no_groups r = true -> c' = c.
Proof.
  induction 1; cbn [no_groups]; intros Hg; try reflexivity; try discriminate.
  - apply andb_true_iff in Hg as [H1 H2]. rewrite IHM2, IHM1; auto.
  - apply andb_true_iff in Hg as [H1 H2]. auto.
  - apply andb_true_iff in Hg as [H1 H2]. auto.
  - rewrite IHM2, IHM1; auto.
Qed.

(** *** Successive matches of a global pattern *)







(** *** Runs of one character class *)


Lemma den_class_run : forall p lo hi w,
  den (Rep lo hi (Chr p)) w <->
  forallb p w = true /\ lo <= length w /\ within (length w) hi.
Proof.
  intros p lo hi w; cbn [den]; split.
  - intros (ws & -> & Hall & Hlo & Hhi).
    assert (E : forallb p (concat ws) = true /\ length (concat ws) = length ws).
    { clear Hlo Hhi. induction Hall as [|x ws (a & -> & Ha) _ [IH1 IH2]].
      - split; reflexivity.
      - cbn. rewrite Ha, IH1, IH2. split; reflexivity. }
    destruct E as [E1 E2]. rewrite E2. auto.
  - intros (Hall & Hlo & Hhi).
    exists (map (fun a => [a]) w).
    rewrite length_map. repeat split; auto.
    + clear. induction w; cbn; congruence.
    + clear Hlo Hhi. induction w as [|a w IH]; cbn in *; constructor.
      * apply andb_true_iff in Hall as [Ha _]. exists a; auto.
      * apply IH. now apply andb_true_iff in Hall as [_ Hall].
Qed.

Lemma den_between : forall p lo hi w,
  den (Between lo hi (Chr p)) w <-> run p lo hi w.
Proof.
  intros. unfold Between, run. rewrite den_class_run. cbn [within]. tauto.
Qed.

Lemma den_exactly : forall p n w,
  den (Exactly n (Chr p)) w <-> run p n n w.
Proof.
  intros. unfold Exactly, run. rewrite den_class_run. cbn [within]. tauto.
Qed.

Lemma den_plus : forall p w,
  den (Plus (Chr p)) w <-> run_from p 1 w.
Proof.
  intros. unfold Plus, run_from. rewrite den_class_run. cbn [within]. tauto.
Qed.

Lemma den_opt : forall r w,
  den (Opt r) w <-> w = [] \/ den r w.
Proof.
  intros r w. unfold Opt. cbn [den]. split.
  - intros (ws & -> & Hall & _ & Hhi). cbn in Hhi.
    destruct ws as [|w1 [|w2 ws]]; cbn in *; [now left | | lia].
    right. rewrite app_nil_r. now inversion Hall.
  - intros [-> | Hd].
    + exists []. cbn. repeat split; auto.
    + exists [w]. cbn. rewrite app_nil_r. repeat split; auto.
Qed.

Lemma den_lit : forall c w, den (lit c) w <-> w = [c].
Proof.
  intros c w. unfold lit, is_char. cbn [den]. split.
  - intros (a & -> & Ha). apply N.eqb_eq in Ha. now subst.
  - intros ->. exists c. split; [reflexivity | apply N.eqb_refl].
Qed.

Lemma den_seq : forall r1 r2 w,
  den (Seq r1 r2) w <-> exists w1 w2, w = w1 ++ w2 /\ den r1 w1 /\ den r2 w2.
Proof. reflexivity. Qed.

Lemma den_chr : forall p w,
  den (Chr p) w <-> exists a, w = [a] /\ p a = true.
Proof. reflexivity. Qed.

(** *** The languages of the patterns of [processImage] *)


Lemma den_simplePlusCodeRegex : forall w,
  den simplePlusCodeRegex w <-> plus_code_token w.
Proof.
  intros w. unfold simplePlusCodeRegex, plus_code_token, alnum. split.
  - intros (w1 & r1 & -> & H1 & w2 & w3 & -> & H2 & H3).
    apply den_between in H1, H3. apply den_lit in H2. subst w2.
    exists w1, w3. auto.
  - intros (a & b & -> & Ha & Hb).
    exists a, (ch_plus :: b). split; [reflexivity|]. split; [now apply den_between|].
    exists [ch_plus], b. split; [reflexivity|]. split; [now apply den_lit | now apply den_between].
Qed.

Lemma den_dateRegex : forall w, den dateRegex w <-> date_shape w.
Proof.
  intros w. unfold dateRegex, date_shape, digit. split.
  - intros (w1 & r1 & -> & H1 & w2 & r2 & -> & H2 & w3 & r3 & -> & H3 &
            w4 & w5 & -> & H4 & H5).
    apply den_between in H1, H3, H5. apply den_lit in H2, H4. subst w2 w4.
    exists w1, w3, w5. auto.
  - intros (d & mo & y & -> & Hd & Hmo & Hy).
    exists d, (ch_slash :: mo ++ ch_slash :: y). split; [reflexivity|].
    split; [now apply den_between|].
    exists [ch_slash], (mo ++ ch_slash :: y). split; [reflexivity|].
    split; [now apply den_lit|].
    exists mo, (ch_slash :: y). split; [reflexivity|].
    split; [now apply den_between|].
    exists [ch_slash], y. split; [reflexivity|].
    split; [now apply den_lit | now apply den_between].
Qed.

Lemma den_seconds : forall w,
  den (Opt (Seq (lit ch_colon) (Exactly 2 digit))) w <-> seconds_part w.
Proof.
  intros w. rewrite den_opt. unfold seconds_part, digit. split.
  - intros [->|(w1 & w2 & -> & H1 & H2)]; [now left|].
    apply den_lit in H1. apply den_exactly in H2. subst w1.
    right. exists w2. auto.
  - intros [->|(ss & -> & Hss)]; [now left|].
    right. exists [ch_colon], ss. split; [reflexivity|].
    split; [now apply den_lit | now apply den_exactly].
Qed.

Lemma den_clockRegex : forall lo hi w,
  den (clockRegex lo hi) w <-> clock_shape lo hi w.
Proof.
  intros lo hi w. unfold clockRegex, clock_shape. split.
  - intros (w1 & r1 & -> & H1 & w2 & r2 & -> & H2 & w3 & w4 & -> & H3 & H4).
    apply den_between in H1. apply den_lit in H2. apply den_exactly in H3.
    apply den_seconds in H4. subst w2.
    exists w1, w3, w4. auto.
  - intros (h & mi & sec & -> & Hh & Hmi & Hsec).
    exists h, (ch_colon :: mi ++ sec). split; [reflexivity|].
    split; [now apply den_between|].
    exists [ch_colon], (mi ++ sec). split; [reflexivity|].
    split; [now apply den_lit|].
    exists mi, sec. split; [reflexivity|].
    split; [now apply den_exactly | now apply den_seconds].
Qed.

Lemma den_ampm : forall w, den ampm w <-> marker w.
Proof.
  intros w. unfold ampm, marker. cbn [den]. split.
  - intros [(w1 & w2 & -> & (a & -> & Ha) & (b & -> & Hb))
           |(w1 & w2 & -> & (a & -> & Ha) & (b & -> & Hb))];
      exists a, b; auto.
  - intros (a & b & -> & [Ha|Ha] & Hb); [left | right];
      exists [a], [b]; (split; [reflexivity|]); split; eexists; eauto.
Qed.

Lemma den_opt_space : forall w, den (Opt space) w <-> opt_space w.
Proof.
  intros w. rewrite den_opt. unfold opt_space, space. cbn [den]. tauto.
Qed.

Lemma den_time_marked : forall w,
  den (Seq (clockRegex 1 2) (Seq (Opt space) ampm)) w <-> time_marked w.
Proof.
  intros w. unfold time_marked. split.
  - intros (w1 & r1 & -> & H1 & w2 & w3 & -> & H2 & H3).
    apply den_clockRegex in H1. apply den_opt_space in H2. apply den_ampm in H3.
    exists w1, w2, w3. auto.
  - intros (clk & sp & mk & -> & H1 & H2 & H3).
    exists clk, (sp ++ mk). split; [reflexivity|].
    split; [now apply den_clockRegex|].
    exists sp, mk. split; [reflexivity|].
    split; [now apply den_opt_space | now apply den_ampm].
Qed.

Lemma den_time_opt_marker : forall w,
  den (Seq (clockRegex 1 2) (Seq (Opt space) (Opt ampm))) w <-> time_opt_marker w.
Proof.
  intros w. unfold time_opt_marker. split.
  - intros (w1 & r1 & -> & H1 & w2 & w3 & -> & H2 & H3).
    apply den_clockRegex in H1. apply den_opt_space in H2. apply den_opt in H3.
    exists w1, w2, w3. repeat split; auto.
    destruct H3 as [->|H3]; [now left | right; now apply den_ampm].
  - intros (clk & sp & mk & -> & H1 & H2 & H3).
    exists clk, (sp ++ mk). split; [reflexivity|].
    split; [now apply den_clockRegex|].
    exists sp, mk. split; [reflexivity|].
    split; [now apply den_opt_space|].
    apply den_opt. destruct H3 as [->|H3]; [now left | right; now apply den_ampm].
Qed.

(** * Field extraction *)

(** ** White space and trimming *)

Lemma trim_start_head : forall a w,
  is_space a = false -> trim_start (a :: w) = a :: w.
Proof. intros a w H. cbn. now rewrite H. Qed.

Lemma trim_start_keeps : forall w,
  (exists a, In a w /\ is_space a = false) -> trim_start w <> [].
Proof.
  induction w as [|b w IH]; intros (a & Hin & Ha); [destruct Hin|].
  cbn. destruct (is_space b) eqn:Eb; [|discriminate].
  apply IH. destruct Hin as [->|Hin]; [congruence | eauto].
Qed.

Lemma trim_keeps : forall a w,
  is_space a = false -> trim (a :: w) <> [].
Proof.
  intros a w Ha. unfold trim, trim_end. rewrite trim_start_head by exact Ha.
  intros E.
  assert (E' : trim_start (rev (a :: w)) = []).
  { destruct (trim_start (rev (a :: w))) as [|b l]; [reflexivity|].
    cbn [rev] in E. destruct (rev l); discriminate. }
  revert E'. apply trim_start_keeps. exists a. split; [|exact Ha].
  apply in_rev. rewrite rev_involutive. now left.
Qed.

Lemma trim_no_space : forall w,
  forallb (fun a => negb (is_space a)) w = true -> trim w = w.
Proof.
  intros w H.
  assert (G : forall l, forallb (fun a => negb (is_space a)) l = true -> trim_start l = l).
  { intros [|a l] Hl; [reflexivity|]. cbn in Hl. apply andb_true_iff in Hl as [Ha _].
    apply trim_start_head. now apply negb_true_iff. }
  unfold trim, trim_end. rewrite (G w H). rewrite G.
  - apply rev_involutive.
  - apply forallb_forall. intros x Hx. apply in_rev in Hx.
    rewrite forallb_forall in H. now apply H.
Qed.

(** Deciding membership of a class from bounds on the code unit. *)
Ltac class_bounds :=
  repeat match goal with
         | H : (_ && _) = true |- _ => apply andb_true_iff in H; destruct H
         | H : N.leb _ _ = true |- _ => apply N.leb_le in H
         end.

Ltac not_in_class :=
  unfold is_space, in_range;
  repeat (apply orb_false_iff; split);
  try (apply N.eqb_neq; lia);
  apply andb_false_iff;
  ((left; apply N.leb_gt; lia) || (right; apply N.leb_gt; lia)).

Lemma digit_not_space : forall a, is_digit a = true -> is_space a = false.
Proof.
  intros a H. unfold is_digit, in_range in H. class_bounds. not_in_class.
Qed.

Lemma alnum_not_space : forall a, is_alnum a = true -> is_space a = false.
Proof.
  intros a H. unfold is_alnum in H.
  apply orb_true_iff in H as [H|H]; [apply orb_true_iff in H as [H|H]|].
  - now apply digit_not_space.
  - unfold is_upper, in_range in H. class_bounds. not_in_class.
  - unfold is_lower, in_range in H. class_bounds. not_in_class.
Qed.

Lemma run_head : forall p lo hi w,
  run p lo hi w -> 1 <= lo -> exists a w', w = a :: w' /\ p a = true.
Proof.
  intros p lo hi [|a w'] [Hall [Hlo _]] H1; cbn in *; [lia|].
  apply andb_true_iff in Hall as [Ha _]. eauto.
Qed.

(** ** Printing numbers *)

Lemma digits_aux_nonempty : forall fuel n acc,
  acc <> [] -> digits_aux fuel n acc <> [].
Proof.
  induction fuel as [|fuel IH]; intros n acc H; cbn; [exact H|].
  destruct (N.eqb n 0); [exact H|]. apply IH. discriminate.
Qed.

Lemma digits_of_nonempty : forall n, n <> 0%N -> digits_of n <> [].
Proof.
  intros n Hn. unfold digits_of.
  destruct n as [|p]; [congruence|].
  assert (E : exists f, N.size_nat (N.pos p) = S f) by (destruct p; cbn; eauto).
  destruct E as [f ->]. cbn [digits_aux].
  change (N.eqb (N.pos p) 0) with false. cbv iota.
  apply digits_aux_nonempty. discriminate.
Qed.

Lemma strip_tens_nonzero : forall fuel n z,
  n <> 0%N -> fst (strip_tens fuel n z) <> 0%N.
Proof.
  induction fuel as [|fuel IH]; intros n z Hn; cbn; [exact Hn|].
  destruct (N.eqb n 0) eqn:E0; [exact Hn|].
  destruct (N.eqb (n mod 10) 0) eqn:Em; [|exact Hn].
  apply IH. apply N.eqb_eq in Em.
  intros Hd. apply Hn.
  rewrite (N.div_mod n 10) by discriminate. rewrite Hd, Em. reflexivity.
Qed.

Theorem number_to_string_nonempty : forall x, number_to_string x <> [].
Proof.
  intros [|d]; [discriminate|]. cbn [number_to_string].
  destruct (N.eqb (Z.to_N (Z.abs (mant d))) 0) eqn:E0; [discriminate|].
  apply N.eqb_neq in E0.
  pose proof (strip_tens_nonzero (N.size_nat (Z.to_N (Z.abs (mant d)))) _ 0 E0) as Hs.
  destruct (strip_tens _ _ 0) as [sig z]. cbn [fst] in Hs.
  pose proof (digits_of_nonempty _ Hs) as Hd.
  destruct (digits_of sig) as [|d0 more] eqn:Eds; [congruence|].
  set (k := Z.of_nat (length (d0 :: more))).
  set (n := (k + Z.of_nat z - Z.of_nat (scale d))%Z).
  assert (G : forall b : text, b <> [] ->
              (if (mant d <? 0)%Z then ch_minus :: b else b) <> []).
  { intros b Hb. destruct (mant d <? 0)%Z; [discriminate | exact Hb]. }
  apply G.
  destruct ((k <=? n) && (n <=? 21))%Z; [discriminate|].
  destruct ((0 <? n) && (n <=? 21))%Z.
  { intros E. apply (f_equal (@length char)) in E.
    rewrite length_app in E. cbn in E. lia. }
  destruct ((-6 <? n) && (n <=? 0))%Z; [discriminate|].
  destruct more; discriminate.
Qed.

(** ** The extraction step never throws *)

Lemma first_to_string_ok : forall cands,
  first_to_string cands = Ok (selected cands).
Proof. intros [|n cands]; reflexivity. Qed.

Theorem extractFields_ok : forall name raw,
  extractFields name raw =
  Ok (mkExtractedData name
        (extractPlusCode (normalize raw))
        (selected (filter in_lat (potentialCoords (normalize raw))))
        (selected (filter in_lon (potentialCoords (normalize raw))))
        (extractTimestamp (normalize raw))
        raw).
Proof.
  intros name raw. unfold extractFields, extractLatitude, extractLongitude.
  rewrite !first_to_string_ok. reflexivity.
Qed.

(** ** Timestamp patterns *)

Lemma M_seq_inv : forall total r1 r2 s c s2 c2,
  M total (Seq r1 r2) s c s2 c2 ->
  exists s1 c1, M total r1 s c s1 c1 /\ M total r2 s1 c1 s2 c2.
Proof. intros * H. inversion H; subst. eauto. Qed.

Lemma M_group_inv : forall total i r s c s' c',
  M total (Group i r) s c s' c' ->
  exists c0, M total r s c s' c0 /\ c' = (i, consumed s s') :: c0.
Proof. intros * H. inversion H; subst. eauto. Qed.

Lemma plain_two_groups : forall ab,
  plain (fst ab) = true -> plain (snd ab) = true -> plain (two_groups ab) = true.
Proof. intros [a b] Ha Hb. cbn in *. now rewrite Ha, Hb. Qed.

Lemma two_groups_M : forall total ab s s' cs,
  plain (fst ab) = true -> plain (snd ab) = true ->
  no_groups (fst ab) = true -> no_groups (snd ab) = true ->
  M total (two_groups ab) s [] s' cs ->
  exists g1 ws g2,
    s = g1 ++ ws ++ g2 ++ s' /\
    den (fst ab) g1 /\ run_from is_space 1 ws /\ den (snd ab) g2 /\
    cs = [(2, g2); (1, g1)].
Proof.
  intros total [a b] s s' cs Hpa Hpb Hga Hgb H. unfold two_groups in H. cbn [fst snd] in *.
  apply M_seq_inv in H as (s1 & c1 & H1 & H).
  apply M_group_inv in H1 as (c0 & H1 & ->).
  apply M_seq_inv in H as (s2 & c2 & H2 & H3).
  apply M_group_inv in H3 as (c3 & H3 & ->).
  rewrite (M_no_groups _ _ _ _ _ _ H3 Hgb).
  rewrite (M_no_groups _ _ _ _ _ _ H2 eq_refl).
  rewrite (M_no_groups _ _ _ _ _ _ H1 Hga).
  destruct (M_den _ _ _ _ _ _ H1 Hpa) as (g1 & -> & Hd1).
  destruct (M_den _ _ _ _ _ _ H2 eq_refl) as (ws & -> & Hd2).
  destruct (M_den _ _ _ _ _ _ H3 Hpb) as (g2 & -> & Hd3).
  exists g1, ws, g2. rewrite !consumed_app.
  apply den_plus in Hd2.
  split; [reflexivity|]. split; [exact Hd1|]. split; [exact Hd2|].
  split; [exact Hd3 | reflexivity].
Qed.

Lemma two_part_occurs : forall ab AB t,
  agrees ab AB -> two_part (fst AB) (snd AB) t -> occurs (den (two_groups ab)) t.
Proof.
  intros [a b] [A B] t (_ & _ & _ & _ & HA & HB)
         (pre & g1 & ws & g2 & post & -> & H1 & Hws & H2).
  cbn [fst snd] in *.
  exists pre, (g1 ++ ws ++ g2), post. split; [now rewrite <- !app_assoc|].
  unfold two_groups. cbn [fst snd].
  exists g1, (ws ++ g2). split; [reflexivity|]. split; [now apply HA|].
  exists ws, g2. split; [reflexivity|]. split; [now apply den_plus | now apply HB].
Qed.

Lemma exec_two_groups : forall ab AB t f,
  agrees ab AB -> exec (two_groups ab) t = Some f ->
  exists g1 ws g2,
    t = f_pre f ++ g1 ++ ws ++ g2 ++ f_post f /\
    fst AB g1 /\ run_from is_space 1 ws /\ snd AB g2 /\
    group 1 f = g1 /\ group 2 f = g2.
Proof.
  intros ab AB t f (Hpa & Hpb & Hga & Hgb & HA & HB) He.
  destruct (exec_some _ _ _ (plain_two_groups _ Hpa Hpb) He) as (Et & _ & HM & _).
  destruct (two_groups_M _ _ _ _ _ Hpa Hpb Hga Hgb HM)
    as (g1 & ws & g2 & E & H1 & Hws & H2 & Ec).
  exists g1, ws, g2. unfold group. rewrite Ec. cbn [cap Nat.eqb].
  split; [rewrite Et, E; reflexivity|].
  split; [now apply HA|]. split; [exact Hws|].
  split; [now apply HB|]. split; reflexivity.
Qed.

(** The loop over the patterns returns the groups of the first pattern that
    occurs in the text, or the sentinel when none occurs. *)
Lemma first_timestamp_spec : forall parts shapes,
  Forall2 agrees parts shapes ->
  forall t,
    (first_timestamp (map two_groups parts) t = NotFound /\
     forall AB, In AB shapes -> ~ two_part (fst AB) (snd AB) t) \/
    (exists k AB pre g1 ws g2 post,
        nth_error shapes k = Some AB /\
        (forall j AB', j < k -> nth_error shapes j = Some AB' ->
                       ~ two_part (fst AB') (snd AB') t) /\
        t = pre ++ g1 ++ ws ++ g2 ++ post /\
        fst AB g1 /\ run_from is_space 1 ws /\ snd AB g2 /\
        first_timestamp (map two_groups parts) t = trim (g1 ++ ch_space :: g2)).
Proof.
  induction 1 as [|ab AB parts shapes Hag _ IH]; intros t.
  - left. split; [reflexivity | intros ? []].
  - cbn [map first_timestamp].
    destruct (exec (two_groups ab) t) as [f|] eqn:He.
    + right.
      destruct (exec_two_groups _ _ _ _ Hag He)
        as (g1 & ws & g2 & Et & H1 & Hws & H2 & E1 & E2).
      exists 0, AB, (f_pre f), g1, ws, g2, (f_post f).
      rewrite E1, E2.
      split; [reflexivity|]. split; [intros j AB' Hj; lia|].
      split; [exact Et|]. split; [exact H1|]. split; [exact Hws|].
      split; [exact H2 | reflexivity].
    + assert (Hno : ~ two_part (fst AB) (snd AB) t).
      { intros Htp. apply (two_part_occurs _ _ _ Hag) in Htp.
        destruct Hag as (Hpa & Hpb & _).
        revert Htp. apply exec_none; [now apply plain_two_groups | exact He]. }
      destruct (IH t) as [[E Hall] | (k & AB1 & pre & g1 & ws & g2 & post &
                                      Hk & Hbefore & Et & H1 & Hws & H2 & E)].
      * left. split; [exact E|].
        intros AB' [<-|Hin]; [exact Hno | now apply Hall].
      * right. exists (S k), AB1, pre, g1, ws, g2, post.
        split; [exact Hk|]. split.
        { intros [|j] AB' Hj Hn; cbn in Hn.
          - injection Hn as <-. exact Hno.
          - eapply Hbefore; eauto. lia. }
        split; [exact Et|]. split; [exact H1|]. split; [exact Hws|].
        split; [exact H2 | exact E].
Qed.

Lemma timestampParts_agree : Forall2 agrees timestampParts timestampShapes.
Proof.
  unfold timestampParts, timestampShapes.
  repeat (apply Forall2_cons;
          [ unfold agrees; cbn [fst snd];
            do 4 (split; [reflexivity|]);
            split; intros w;
            first [ apply den_time_marked | apply den_time_opt_marker
                  | apply den_dateRegex | apply den_clockRegex ]
          | ]).
  apply Forall2_nil.
Qed.

Lemma timestampPatterns_parts : timestampPatterns = map two_groups timestampParts.
Proof. reflexivity. Qed.

(** ** Coordinate tokens and their values *)


















(** ** Plus codes *)

Lemma plus_code_token_clean : forall pc,
  plus_code_token pc ->
  forallb (fun a => negb (is_space a)) pc = true /\ In ch_plus pc.
Proof.
  intros pc (a & b & -> & [Ha _] & [Hb _]). split.
  - rewrite forallb_app. cbn [forallb].
    assert (G : forall w, forallb is_alnum w = true ->
                          forallb (fun x => negb (is_space x)) w = true).
    { intros w Hw. apply forallb_forall. intros x Hx.
      rewrite forallb_forall in Hw. apply negb_true_iff, alnum_not_space. auto. }
    rewrite (G a Ha), (G b Hb). reflexivity.
  - apply in_or_app. right. now left.
Qed.

Lemma extractPlusCode_cases : forall t,
  (extractPlusCode t = NotFound /\ ~ occurs plus_code_token t) \/
  (exists pre pc post rest,
      t = pre ++ pc ++ post /\ plus_code_token pc /\
      (forall pre' w post', t = pre' ++ w ++ post' -> plus_code_token w ->
                            length pre <= length pre') /\
      extractPlusCode t = pc ++ rest).
Proof.
  intros t. unfold extractPlusCode.
  destruct (exec simplePlusCodeRegex t) as [f|] eqn:E.
  - right. destruct (exec_some simplePlusCodeRegex _ _ eq_refl E) as (Et & Hd & _ & Hleft).
    apply den_simplePlusCodeRegex in Hd.
    destruct (plus_code_token_clean _ Hd) as [Hclean _].
    rewrite (trim_no_space _ Hclean).
    exists (f_pre f), (f_hit f), (f_post f),
      (address_suffix (second_or_empty (split (f_hit f) t))).
    split; [exact Et|]. split; [exact Hd|]. split.
    + intros pre' w post' E' Hw. eapply Hleft; eauto.
      now apply den_simplePlusCodeRegex.
    + unfold address_suffix.
      destruct (exec addressCleanupRegex _); [reflexivity|].
      symmetry. apply app_nil_r.
  - left. split; [reflexivity|].
    intros (pre & w & post & Et & Hw).
    apply den_simplePlusCodeRegex in Hw.
    apply (exec_none simplePlusCodeRegex _ eq_refl E).
    now exists pre, w, post.
Qed.

(** The sentinel is returned exactly when no plus-code token occurs, and
    otherwise the field starts with the leftmost token. *)
Theorem plusCode_sentinel_iff : forall t,
  extractPlusCode t = NotFound <-> ~ occurs plus_code_token t.
Proof.
  intros t. destruct (extractPlusCode_cases t)
    as [[E Hno] | (pre & pc & post & rest & Et & Hpc & _ & E)].
  - tauto.
  - split.
    + intros En. rewrite E in En.
      destruct (plus_code_token_clean _ Hpc) as [_ Hin].
      assert (Hin' : In ch_plus NotFound)
        by (rewrite <- En; apply in_or_app; now left).
      exfalso. revert Hin'. vm_compute. intuition discriminate.
    + intros Hno. exfalso. apply Hno. now exists pre, pc, post.
Qed.


(** ** Splitting at a separator *)

Lemma is_prefix_true : forall p s,
  is_prefix p s = true <-> exists x, s = p ++ x.
Proof.
  induction p as [|a p IH]; intros s; cbn.
  - split; [intros _; now exists s | reflexivity].
  - destruct s as [|b s]; [split; [discriminate | intros (x & E); discriminate]|].
    unfold char_eqb. split.
    + intros H. apply andb_true_iff in H as [Hab Hp].
      apply N.eqb_eq in Hab. subst b. apply IH in Hp as (x & ->). now exists x.
    + intros (x & E). injection E as -> ->.
      rewrite N.eqb_refl. apply IH. now exists x.
Qed.

Lemma split_aux_no_occurrence : forall sep post cur,
  (forall p1 rest1, post = p1 ++ rest1 -> is_prefix sep rest1 = false) ->
  split_aux sep 0 cur post = [cur ++ post].
Proof.
  intros sep. induction post as [|a post IH]; intros cur H; cbn [split_aux].
  - now rewrite app_nil_r.
  - rewrite (H [] (a :: post) eq_refl).
    rewrite IH.
    + now rewrite <- app_assoc.
    + intros p1 rest1 E. apply (H (a :: p1) rest1). cbn. now f_equal.
Qed.

Lemma split_aux_skip : forall sep w post cur,
  split_aux sep (length w) cur (w ++ post) = split_aux sep 0 cur post.
Proof.
  intros sep. induction w as [|a w IH]; intros post cur; cbn; [reflexivity | apply IH].
Qed.

Lemma split_aux_first : forall sep0 sep post pre cur,
  (forall p1 rest1, pre ++ (sep0 :: sep) ++ post = p1 ++ rest1 ->
                    length p1 < length pre -> is_prefix (sep0 :: sep) rest1 = false) ->
  split_aux (sep0 :: sep) 0 cur (pre ++ (sep0 :: sep) ++ post) =
  (cur ++ pre) :: split_aux (sep0 :: sep) 0 [] post.
Proof.
  intros sep0 sep post. induction pre as [|a pre IH]; intros cur H.
  - assert (E : is_prefix (sep0 :: sep) ((sep0 :: sep) ++ post) = true).
    { apply is_prefix_true. now exists post. }
    change ([] ++ (sep0 :: sep) ++ post) with (sep0 :: (sep ++ post)).
    change ((sep0 :: sep) ++ post) with (sep0 :: (sep ++ post)) in E.
    cbn [split_aux]. rewrite E, app_nil_r. f_equal.
    replace (length (sep0 :: sep) - 1) with (length sep) by (cbn [length]; lia).
    apply split_aux_skip.
  - assert (Ep : is_prefix (sep0 :: sep) ((a :: pre) ++ (sep0 :: sep) ++ post) = false)
      by (apply (H [] _ eq_refl); cbn; lia).
    change ((a :: pre) ++ (sep0 :: sep) ++ post)
      with (a :: (pre ++ (sep0 :: sep) ++ post)) in Ep |- *.
    cbn [split_aux]. rewrite Ep.
    rewrite IH.
    + now rewrite <- app_assoc.
    + intros p1 rest1 E Hlt. apply (H (a :: p1) rest1).
      * cbn. now f_equal.
      * cbn. lia.
Qed.

(** When the separator occurs at [pre], not before, and not again after,
    the split has exactly the two pieces around it. *)
Lemma split_once : forall sep pre post,
  sep <> [] ->
  (forall p1 rest1, pre ++ sep ++ post = p1 ++ rest1 ->
                    length p1 < length pre -> is_prefix sep rest1 = false) ->
  (forall p1 rest1, post = p1 ++ rest1 -> is_prefix sep rest1 = false) ->
  split sep (pre ++ sep ++ post) = [pre; post].
Proof.
  intros [|sep0 sep] pre post Hne H1 H2; [congruence|].
  unfold split. rewrite split_aux_first by exact H1.
  rewrite split_aux_no_occurrence by exact H2. reflexivity.
Qed.

(** The program agrees with the words of the specification on every text in
    which the matched code does not occur a second time after the match. *)
Theorem plusCode_agrees_when_code_is_unique : forall t,
  (forall f, exec simplePlusCodeRegex t = Some f ->
             ~ occurs (eq (f_hit f)) (f_post f)) ->
  extractPlusCode t = plusCode_spec t.
Proof.
  intros t Huniq. unfold extractPlusCode, plusCode_spec.
  destruct (exec simplePlusCodeRegex t) as [f|] eqn:E; [|reflexivity].
  specialize (Huniq f eq_refl).
  destruct (exec_some simplePlusCodeRegex _ _ eq_refl E) as (Et & Hd & _ & Hleft).
  pose proof Hd as Htok. apply den_simplePlusCodeRegex in Htok.
  destruct (plus_code_token_clean _ Htok) as [Hclean Hin].
  rewrite (trim_no_space _ Hclean).
  assert (Es : split (f_hit f) t = [f_pre f; f_post f]).
  { rewrite Et at 1. apply split_once.
    - destruct (f_hit f); [destruct Hin | discriminate].
    - intros p1 rest1 E1 Hlt.
      destruct (is_prefix (f_hit f) rest1) eqn:Ep; [|reflexivity].
      apply is_prefix_true in Ep as (x & ->).
      rewrite <- Et in E1. specialize (Hleft _ _ _ E1 Hd). lia.
    - intros p1 rest1 E1.
      destruct (is_prefix (f_hit f) rest1) eqn:Ep; [|reflexivity].
      apply is_prefix_true in Ep as (x & ->).
      exfalso. apply Huniq. now exists p1, (f_hit f), x. }
  rewrite Es. cbn [second_or_empty nth_error]. unfold address_suffix.
  destruct (exec addressCleanupRegex (f_post f)); [reflexivity | now rewrite app_nil_r].
Qed.

(** ** Printed numbers denote the value they print *)

Local Open Scope Z_scope.















Local Close Scope Z_scope.

(** * The batch coordinator *)

Lemma processOne_fst : forall eng file w,
  fst (processOne eng file w) = Ok (entry_of eng file).
Proof.
  intros eng file w.
  unfold processOne, processImage, entry_of, try_catch, tbind, createObjectURL,
    revokeObjectURL, console_error, setCompletedCount, lift, ret, throw.
  destruct (eng file) as [e|e|txt]; try reflexivity.
  cbn. destruct (extractFields (file_name file) txt); reflexivity.
Qed.

Lemma processOne_console : forall eng file w,
  console (snd (processOne eng file w)) = console w ++ log_of eng file.
Proof.
  intros eng file w.
  unfold processOne, processImage, log_of, try_catch, tbind, createObjectURL,
    revokeObjectURL, console_error, setCompletedCount, lift, ret, throw.
  destruct (eng file) as [e|e|txt]; cbn.
  - reflexivity.
  - now rewrite <- app_assoc.
  - destruct (extractFields (file_name file) txt); cbn;
      [now rewrite app_nil_r | now rewrite <- app_assoc].
Qed.

Lemma processOne_frame : forall eng file w,
  completedCount (snd (processOne eng file w)) = S (completedCount w) /\
  downloads (snd (processOne eng file w)) = downloads w /\
  clock (snd (processOne eng file w)) = clock w.
Proof.
  intros eng file w.
  unfold processOne, processImage, try_catch, tbind, createObjectURL,
    revokeObjectURL, console_error, setCompletedCount, lift, ret, throw.
  destruct (eng file) as [e|e|txt]; cbn; auto.
  destruct (extractFields (file_name file) txt); cbn; auto.
Qed.

Lemma awaitResults_spec : forall eng files w,
  exists w',
    awaitResults eng files w = (Ok (map (entry_of eng) files), w') /\
    console w' = console w ++ concat (map (log_of eng) files) /\
    completedCount w' = completedCount w + length files /\
    downloads w' = downloads w /\
    clock w' = clock w.
Proof.
  intros eng. unfold awaitResults.
  induction files as [|f files IH]; intros w.
  - exists w. cbn. rewrite app_nil_r. repeat split; auto.
  - cbn [map promise_all]. unfold tbind at 1.
    pose proof (processOne_fst eng f w) as H1.
    pose proof (processOne_console eng f w) as H2.
    pose proof (processOne_frame eng f w) as (H3 & H4 & H5).
    destruct (processOne eng f w) as [o w1]. cbn [fst snd] in *. subst o.
    destruct (IH w1) as (w' & E & Hc & Hn & Hd & Hk).
    exists w'. unfold tbind at 1. rewrite E. cbn [ret concat length].
    split; [reflexivity|].
    rewrite Hc, H2, Hn, H3, Hd, H4, Hk, H5, <- app_assoc.
    repeat split; auto; lia.
Qed.

Lemma non_null_nil : forall (A : Type) (xs : list (option A)),
  non_null xs = [] <-> forall x, In x xs -> x = None.
Proof.
  intros A. induction xs as [|[a|] xs IH]; cbn; split; intros H.
  - intros ? [].
  - reflexivity.
  - discriminate.
  - specialize (H (Some a) (or_introl eq_refl)). discriminate.
  - intros x [<-|Hx]; [reflexivity | now apply IH].
  - apply IH. intros x Hx. apply H. now right.
Qed.

Lemma in_non_null : forall (A : Type) (xs : list (option A)) a,
  In a (non_null xs) <-> In (Some a) xs.
Proof.
  intros A. induction xs as [|[b|] xs IH]; intros a; cbn.
  - tauto.
  - rewrite IH. split; intros [E|H]; auto; left; congruence.
  - rewrite IH. split; [auto | intros [E|H]; [discriminate | exact H]].
Qed.

Lemma entry_of_some : forall eng f r,
  entry_of eng f = Some r <->
  exists txt, eng f = JobResolves txt /\ extractFields (file_name f) txt = Ok r.
Proof.
  intros eng f r. unfold entry_of. split.
  - destruct (eng f) as [e|e|txt]; try discriminate.
    destruct (extractFields (file_name f) txt) eqn:E; [|discriminate].
    intros H; injection H as <-. eauto.
  - intros (txt & -> & ->). reflexivity.
Qed.

(** * The worker pool *)

Lemma pool_step_inv : forall p ev, pool_inv p -> pool_inv (pool_step p ev).
Proof.
  intros [sch cons fl wt rp] ev Hinv. unfold pool_inv in *. cbn [scheduler constructions in_flight] in *.
  destruct Hinv as [(-> & -> & ->)|[Hs ->]].
  - destruct ev as [c | wk | wk e]; cbn.
    + right. split; [discriminate | reflexivity].
    + left. auto.
    + left. auto.
  - destruct sch as [ws|]; [|congruence].
    destruct ev as [c | wk | wk e]; cbn [pool_step scheduler].
    + right. split; [discriminate | reflexivity].
    + cbn [in_flight waiting constructions replies].
      destruct (mem wk fl); [|right; split; [discriminate | reflexivity]].
      destruct (remove_nat wk fl), wt; right; (split; [discriminate | reflexivity]).
    + cbn [in_flight waiting constructions replies].
      destruct (mem wk fl); [|right; split; [discriminate | reflexivity]].
      destruct wt; right; (split; [discriminate | reflexivity]).
Qed.

Lemma pool_run_inv : forall evs p, pool_inv p -> pool_inv (pool_run evs p).
Proof.
  unfold pool_run. induction evs as [|ev evs IH]; intros p H; cbn; [exact H|].
  apply IH. now apply pool_step_inv.
Qed.

(** However many callers arrive and however the events interleave, the
    engines are constructed at most once: [WORKER_COUNT] calls of
    createWorker in all, or none when nobody called. *)
Theorem single_construction : forall evs,
  constructions (pool_run evs pool_init) = 0 \/
  constructions (pool_run evs pool_init) = WORKER_COUNT.
Proof.
  intros evs.
  destruct (pool_run_inv evs pool_init) as [(_ & H & _)|[_ H]]; auto.
  left. repeat split; reflexivity.
Qed.

(** Once the module variable is set, a call constructs nothing and hands
    out the scheduler as it is. *)
Theorem call_reuses_scheduler : forall p ws caller,
  scheduler p = Some ws ->
  let p' := pool_step p (Call caller) in
  constructions p' = constructions p /\
  scheduler p' = Some ws /\
  replies p' = replies p ++ [(caller, GotScheduler (length ws))].
Proof.
  intros p ws caller H. cbn. rewrite H. cbn. auto.
Qed.

(** [processImage] returns the record of [extractFields] on the text the
    engine recognised, with that text as [originalText]. *)
Lemma processImage_resolves : forall eng file w txt,
  eng file = JobResolves txt ->
  exists r,
    fst (processImage eng file w) = Ok r /\
    extractFields (file_name file) txt = Ok r /\
    originalText r = txt /\ imageName r = file_name file.
Proof.
  intros eng file w txt H. eexists.
  unfold processImage, try_catch, tbind, createObjectURL, revokeObjectURL, lift, ret.
  rewrite H. cbn. rewrite extractFields_ok. cbn.
  repeat split; reflexivity.
Qed.

(** * The claims of the specification *)




(** ** Timestamps *)

Lemma shape_starts_with_digit : forall AB g1,
  In AB timestampShapes -> fst AB g1 ->
  exists a g', g1 = a :: g' /\ is_digit a = true.
Proof.
  intros AB g1 Hin H.
  assert (Hclock : forall lo hi w, 1 <= lo -> clock_shape lo hi w ->
                     exists a g', w = a :: g' /\ is_digit a = true).
  { intros lo hi w Hlo (h & mi & sec & -> & Hh & _).
    destruct (run_head _ _ _ _ Hh Hlo) as (a & h' & -> & Ha).
    exists a. eexists. split; [reflexivity | exact Ha]. }
  assert (Hdate : forall w, date_shape w ->
                     exists a g', w = a :: g' /\ is_digit a = true).
  { intros w (d & mo & y & -> & Hd & _).
    destruct (run_head _ _ _ _ Hd (le_n 1)) as (a & d' & -> & Ha).
    exists a. eexists. split; [reflexivity | exact Ha]. }
  unfold timestampShapes in Hin. cbn [In] in Hin.
  destruct Hin as [<-|[<-|[<-|[<-|[]]]]]; cbn [fst] in H.
  - destruct H as (clk & sp & mk & -> & Hc & _).
    destruct (Hclock _ _ _ (le_n 1) Hc) as (a & g' & -> & Ha).
    exists a. eexists. split; [reflexivity | exact Ha].
  - now apply Hdate.
  - apply (Hclock 2 2); [lia | exact H].
  - now apply Hdate.
Qed.



(** C4: for every input string the extraction step returns a record (it
    does not throw), and each of plusCode, latitude, longitude and timestamp
    is either a matched value or exactly "Not found", never the empty
    string. *)
Theorem extraction_never_fails : forall name raw,
  exists r,
    extractFields name raw = Ok r /\
    (plusCode r = NotFound \/
     exists pc rest, plus_code_token pc /\ occurs (eq pc) (normalize raw) /\
                     plusCode r = pc ++ rest) /\
    (latitude r = NotFound \/
     exists n, In n (potentialCoords (normalize raw)) /\ in_lat n = true /\
               latitude r = number_to_string n) /\
    (longitude r = NotFound \/
     exists n, In n (potentialCoords (normalize raw)) /\ in_lon n = true /\
               longitude r = number_to_string n) /\
    (timestamp r = NotFound \/
     exists AB g1 g2, In AB timestampShapes /\ fst AB g1 /\ snd AB g2 /\
                      timestamp r = trim (g1 ++ ch_space :: g2)) /\
    plusCode r <> [] /\ latitude r <> [] /\ longitude r <> [] /\ timestamp r <> [].
Proof.
  intros name raw. eexists. split; [apply extractFields_ok|].
  cbn [plusCode latitude longitude timestamp].
  assert (Hsel : forall p vals,
    (selected (filter p vals) = NotFound \/
     exists n, In n vals /\ p n = true /\ selected (filter p vals) = number_to_string n) /\
    selected (filter p vals) <> []).
  { intros p vals. destruct (filter p vals) as [|n l] eqn:E; cbn [selected].
    - split; [now left | discriminate].
    - assert (Hin : In n (filter p vals)) by (rewrite E; now left).
      apply filter_In in Hin as [Hin Hp].
      split; [right; eauto | apply number_to_string_nonempty]. }
  assert (Hpc :
    (extractPlusCode (normalize raw) = NotFound \/
     exists pc rest, plus_code_token pc /\ occurs (eq pc) (normalize raw) /\
                     extractPlusCode (normalize raw) = pc ++ rest) /\
    extractPlusCode (normalize raw) <> []).
  { destruct (extractPlusCode_cases (normalize raw))
      as [[E _] | (pre & pc & post & rest & Et & Htok & _ & E)].
    - rewrite E. split; [now left | discriminate].
    - split.
      + right. exists pc, rest. split; [exact Htok|]. split; [|exact E].
        now exists pre, pc, post.
      + rewrite E. destruct (plus_code_token_clean _ Htok) as [_ Hin].
        destruct pc; [destruct Hin | discriminate]. }
  assert (Hts :
    (extractTimestamp (normalize raw) = NotFound \/
     exists AB g1 g2, In AB timestampShapes /\ fst AB g1 /\ snd AB g2 /\
                      extractTimestamp (normalize raw) = trim (g1 ++ ch_space :: g2)) /\
    extractTimestamp (normalize raw) <> []).
  { unfold extractTimestamp. rewrite timestampPatterns_parts.
    destruct (first_timestamp_spec _ _ timestampParts_agree (normalize raw))
      as [[E _] | (k & AB & pre & g1 & ws & g2 & post & Hk & _ & _ & H1 & _ & H2 & E)].
    - rewrite E. split; [now left | discriminate].
    - apply nth_error_In in Hk. split.
      + right. exists AB, g1, g2. auto.
      + rewrite E.
        destruct (shape_starts_with_digit _ _ Hk H1) as (a & g' & -> & Ha).
        cbn [app]. apply trim_keeps. now apply digit_not_space. }
  destruct (Hsel in_lat (potentialCoords (normalize raw))) as [Hlat Hlat'].
  destruct (Hsel in_lon (potentialCoords (normalize raw))) as [Hlon Hlon'].
  destruct Hpc as [Hpc Hpc']. destruct Hts as [Hts Hts'].
  repeat split; assumption.
Qed.

(** ** The sample text of the specification *)




(** C10: the originalText field of the returned record is the raw
    recognised text, not the normalized one; the other four fields depend
    on the raw text through its normalization only. *)
Theorem originalText_is_raw : forall name raw,
  exists r,
    extractFields name raw = Ok r /\
    originalText r = raw /\
    imageName r = name /\
    (forall raw',
        normalize raw' = normalize raw ->
        exists r',
          extractFields name raw' = Ok r' /\
          plusCode r' = plusCode r /\ latitude r' = latitude r /\
          longitude r' = longitude r /\ timestamp r' = timestamp r /\
          originalText r' = raw').
Proof.
  intros name raw. eexists. split; [apply extractFields_ok|].
  split; [reflexivity|]. split; [reflexivity|].
  intros raw' E. eexists. split; [apply extractFields_ok|].
  cbn [plusCode latitude longitude timestamp originalText]. rewrite E.
  repeat split; reflexivity.
Qed.

(** A text with line breaks is stored as it came. *)
Example originalText_keeps_line_breaks :
  let raw := u "9AB8+2X" ++ [ch_newline; ch_newline] ++ u "31.5204" in
  exists r,
    extractFields [] raw = Ok r /\
    originalText r = raw /\
    normalize raw = u "9AB8+2X 31.5204" /\
    latitude r = u "31.5204".
Proof.
  eexists. split; [apply extractFields_ok|].
  repeat split; vm_compute; reflexivity.
Qed.

(** ** Batches *)

(** C5, counterexample: the entry of a failed image carries neither its
    name nor the error.  No reading of entries can recover them: two failing
    files with different names leave the same entry. *)
Lemma failure_entry_untagged :
  ~ (exists tag : option ExtractedData -> option (text * text),
       forall (eng : engine) (files : list File) (w : world) j f e,
         nth_error files j = Some f ->
         eng f = JobRejects e ->
         exists entry,
           nth_error (match fst (awaitResults eng files w) with
                      | Ok results => results
                      | Throw _ => []
                      end) j = Some entry /\
           tag entry = Some (file_name f, e)).
Proof.
  intros (tag & H).
  set (eng := (fun _ : File => JobRejects (u "boom")) : engine).
  set (w := mkWorld [] [] 0 false 0 0 [] 0).
  destruct (H eng [file_a; file_b] w 0 file_a (u "boom") eq_refl eq_refl)
    as (ea & Ha & Ta).
  destruct (H eng [file_a; file_b] w 1 file_b (u "boom") eq_refl eq_refl)
    as (eb & Hb & Tb).
  vm_compute in Ha, Hb.
  injection Ha as <-. injection Hb as <-.
  rewrite Ta in Tb. revert Tb. vm_compute. discriminate.
Qed.

(** C5: a batch of K images gives K entries, entry j belonging to image j.
    The entry of an image whose recognition succeeds is its record, under
    the image's name; the entry of an image whose recognition fails is
    [null], and the image's name and the error go to the console.  What
    happens to one image has no bearing on the entries of the others. *)
Theorem batch_results_by_index : forall (eng : engine) (files : list File) (w : world),
  exists results w',
    awaitResults eng files w = (Ok results, w') /\
    length results = length files /\
    completedCount w' = completedCount w + length files /\
    (forall j f, nth_error files j = Some f ->
       nth_error results j = Some (entry_of eng f) /\
       (forall txt, eng f = JobResolves txt ->
          exists r, extractFields (file_name f) txt = Ok r /\
                    entry_of eng f = Some r /\ imageName r = file_name f) /\
       (forall e, eng f = JobRejects e \/ eng f = SchedulerRejects e ->
          entry_of eng f = None /\
          In (u "Error processing " ++ file_name f ++ u ":", e) (console w'))).
Proof.
  intros eng files w.
  destruct (awaitResults_spec eng files w) as (w' & E & Hc & Hn & _ & _).
  exists (map (entry_of eng) files), w'.
  split; [exact E|]. split; [apply length_map|]. split; [exact Hn|].
  intros j f Hj. split; [now apply map_nth_error|]. split.
  - intros txt Ht. eexists. unfold entry_of. rewrite Ht, extractFields_ok.
    repeat split; reflexivity.
  - intros e He. split; [unfold entry_of; destruct He as [-> | ->]; reflexivity|].
    rewrite Hc. apply in_or_app. right.
    apply in_concat. exists (log_of eng f). split.
    + apply in_map. eapply nth_error_In; eauto.
    + unfold log_of. destruct He as [-> | ->]; [right; now left | now left].
Qed.

(** C8: only the successful records of a batch reach the export step; a
    batch without any performs no export, so no file is produced, and a
    batch with at least one produces exactly one file, made of those
    records. *)
Theorem export_only_successes :
  forall (eng : engine) (unparse : list js_object -> text) (files : list File) (w : world),
  exists w',
    onDrop eng unparse files w = (Ok tt, w') /\
    let successes := non_null (map (entry_of eng) files) in
    (forall r, In r successes <->
       exists f txt, In f files /\ eng f = JobResolves txt /\
                     extractFields (file_name f) txt = Ok r) /\
    (successes = [] -> downloads w' = downloads w) /\
    (successes <> [] ->
       downloads w' =
       downloads w ++ [mkDownload (csv_name (clock w)) (unparse (map csv_row successes))]).
Proof.
  intros eng unparse files w.
  set (w0 := snd ((setCompletedCount (fun _ => 0))
                    (snd (setTotalFiles (length files) (snd (setProcessing true w)))))).
  destruct (awaitResults_spec eng files w0) as (w1 & E & _ & _ & Hd & Hk).
  unfold onDrop.
  unfold tbind at 1. cbn [setProcessing].
  unfold tbind at 1. cbn [setTotalFiles].
  unfold tbind at 1. cbn [setCompletedCount].
  unfold tbind at 1.
  change (awaitResults eng files _) with (awaitResults eng files w0).
  rewrite E.
  set (successes := non_null (map (entry_of eng) files)).
  assert (Hin : forall r, In r successes <->
            exists f txt, In f files /\ eng f = JobResolves txt /\
                          extractFields (file_name f) txt = Ok r).
  { intros r. unfold successes. rewrite in_non_null, in_map_iff. split.
    - intros (f & Hf & Hin). apply entry_of_some in Hf as (txt & H1 & H2). eauto.
    - intros (f & txt & Hin & H1 & H2). exists f. split; [|exact Hin].
      apply entry_of_some. eauto. }
  destruct successes as [|r0 rest] eqn:Es.
  - eexists. split; [reflexivity|]. cbn zeta.
    split; [exact Hin|]. split; [|congruence].
    intros _. cbn. exact Hd.
  - eexists. split; [reflexivity|]. cbn zeta.
    split; [exact Hin|]. split; [discriminate|].
    intros _. cbn. rewrite Hd, Hk. reflexivity.
Qed.

(** ** The pool *)

(** After a completed initialisation every further call is handed the
    scheduler with all its workers, and constructs nothing. *)
Theorem initialised_pool_is_stable : forall callers,
  let p := pool_run (map Call callers) pool_ready in
  constructions p = WORKER_COUNT /\
  scheduler p = scheduler pool_ready /\
  replies p = replies pool_ready ++
              map (fun c => (c, GotScheduler WORKER_COUNT)) callers.
Proof.
  intros callers.
  assert (G : forall cs p,
    scheduler p = Some [0; 1; 2] -> constructions p = WORKER_COUNT ->
    constructions (pool_run (map Call cs) p) = WORKER_COUNT /\
    scheduler (pool_run (map Call cs) p) = Some [0; 1; 2] /\
    replies (pool_run (map Call cs) p) =
      replies p ++ map (fun c => (c, GotScheduler WORKER_COUNT)) cs).
  { unfold pool_run. induction cs as [|c cs IH]; intros p Hs Hc; cbn [map fold_left].
    - rewrite app_nil_r. auto.
    - destruct (call_reuses_scheduler p _ c Hs) as (H1 & H2 & H3).
      destruct (IH (pool_step p (Call c)) H2 (eq_trans H1 Hc)) as (G1 & G2 & G3).
      split; [exact G1|]. split; [exact G2|].
      rewrite G3, H3, <- app_assoc. reflexivity. }
  apply G; reflexivity.
Qed.

(** C7: no partially initialised pool is used by a later call.  Here the
    first call starts the three workers, one of them fails and the call is
    rejected; the module variable stays set, so the next call is handed the
    scheduler with two workers, and no new engine is constructed. *)
Theorem failed_initialisation_is_reused :
  let p := pool_run [Call 0; WorkerFails 0 (u "boom"); WorkerReady 1;
                     WorkerReady 2; Call 1] pool_init in
  replies p = [(0, Rejected (u "boom")); (1, GotScheduler 2)] /\
  2 < WORKER_COUNT /\
  constructions p = WORKER_COUNT.
Proof. vm_compute. repeat split; auto. Qed.

(** C9: every concurrent caller receives the fully initialised pool.  Here
    a second call arrives while the workers of the first are still being
    created: the engines are constructed once, but the second caller is
    handed the scheduler at once, with no worker in it, while the first is
    still waiting. *)
Theorem concurrent_caller_gets_empty_pool :
  let p := pool_run [Call 0; Call 1] pool_init in
  let p' := pool_run [WorkerReady 0; WorkerReady 1; WorkerReady 2] p in
  constructions p = WORKER_COUNT /\
  in_flight p = [0; 1; 2] /\
  waiting p = Some 0 /\
  replies p = [(1, GotScheduler 0)] /\
  0 < WORKER_COUNT /\
  replies p' = [(1, GotScheduler 0); (0, GotScheduler WORKER_COUNT)] /\
  constructions p' = WORKER_COUNT.
Proof. vm_compute. repeat split; auto. Qed.

(** ** Worked inputs *)

Example timestamp_marker_then_date :
  extractTimestamp (u "at 9:30 pm 08/11/2023 10:00") = u "9:30 pm 08/11/2023".
Proof. vm_compute. reflexivity. Qed.

Example timestamp_date_then_time_trimmed :
  extractTimestamp (u "08/11/2023 14:30 some") = u "08/11/2023 14:30".
Proof. vm_compute. reflexivity. Qed.

Example timestamp_one_digit_hour_needs_marker :
  extractTimestamp (u "9:30 08/11/2023") = NotFound.
Proof. vm_compute. reflexivity. Qed.

Example coordinates_with_comma_and_padding :
  exists r,
    extractFields [] (u "1234.5678 -031,520400 060.000 78.0001 23.000") = Ok r /\
    latitude r = u "23" /\ longitude r = u "60".
Proof. eexists. split; [apply extractFields_ok|]. split; vm_compute; reflexivity. Qed.

Example nothing_to_find :
  exists r,
    extractFields [] (u "no fields here") = Ok r /\
    plusCode r = NotFound /\ latitude r = NotFound /\
    longitude r = NotFound /\ timestamp r = NotFound.
Proof. eexists. split; [apply extractFields_ok|]. repeat split; vm_compute; reflexivity. Qed.

Example split_at_repeated_separator :
  split (u "ab") (u "xxabyyabab") = [u "xx"; u "yy"; []; []].
Proof. vm_compute. reflexivity. Qed.

Example small_numbers_print_with_exponent :
  number_to_string (parseFloat (u "0.00000015")) = u "1.5e-7".
Proof. vm_compute. reflexivity. Qed.
